(** * baudotrss: the dummy Teletype, the SMS feed and the weather parser

    A shallow embedding of three modules of the messager package:
    - [messager/dummyteletype.py]  (module [Teletype] below),
    - [messager/twiliofeed.py]     (module [Twilio]),
    - [messager/nwsweatherreport.py] (module [NWS]),
    followed by the properties established about them.

    Python integers are [Z]; [str] values are [string] (one [ascii] per
    code point below 256); [None]-able values are [option]; dictionaries
    are [gmap]; a call that may raise returns an [outcome] or a [result],
    a function that touches no object a value or an exception. *)

From Stdlib Require Import ZArith Ascii String.
From stdpp Require Import base option list gmap strings pretty.

Local Open Scope Z_scope.
#[local] Set Warnings "-clear-no-such-hyp,-register-all".

(** ** Python exceptions and outcomes of a call *)

Inductive exn : Type :=
| ValueError
| TypeError
| OverflowError
| UnboundLocalError (name : string)
| KeyError (key : string)
| AttributeError (msg : string)
| EnvironmentError (msg : string)
| IOError (msg : string)
| RuntimeError (msg : string)
| ParseError (msg : string)
| HTTPException (msg : string).   (* httplib: BadStatusLine, IncompleteRead *)

(** A call on an object whose state has type [S] returns a value, ends the
    process ([os._exit]) or raises; the state reached is kept in all cases. *)
Inductive outcome (S A : Type) : Type :=
| Ret (a : A) (s : S)
| Exit (code : Z) (s : S)
| Raise (e : exn) (s : S).
Arguments Ret {S A} a s.
Arguments Exit {S A} code s.
Arguments Raise {S A} e s.

(** The state a call ends in. *)
Definition outcome_state {S A} (o : outcome S A) : S :=
  match o with Ret _ s | Exit _ s | Raise _ s => s end.

(** The same for a call that never ends the process. *)
Inductive result (S A : Type) : Type :=
| Ok (a : A) (s : S)
| Fail (e : exn) (s : S).
Arguments Ok {S A} a s.
Arguments Fail {S A} e s.

(** A value or an exception, for the functions that touch no object. *)
#[local] Instance exn_ret : MRet (sum exn) := λ A, inr.
#[local] Instance exn_bind : MBind (sum exn) := λ A B f x,
  match x with inl e => inl e | inr a => f a end.

(** [chr n]: the one-character string of code point [n]. *)
Definition chr (n : Z) : ascii := ascii_of_N (Z.to_N n).
(** [ord c]. *)
Definition ord (c : ascii) : Z := Z.of_N (N_of_ascii c).

(** A value that [bytearray.append] accepts: [range(256)]. *)
Definition is_byte (b : Z) : bool := (0 <=? b) && (b <? 256).

(** ** Python strings *)

(** [isspace] on the code points below 256, as [unicode.strip] sees it. *)
Definition isspace (c : ascii) : bool :=
  let n := ord c in
  ((9 <=? n) && (n <=? 13)) || ((28 <=? n) && (n <=? 32)) ||
  (n =? 133) || (n =? 160).

Fixpoint lstrip_list (l : list ascii) : list ascii :=
  match l with
  | c :: l' => if isspace c then lstrip_list l' else l
  | [] => []
  end.

(** [s.strip()]. *)
Definition strip (s : string) : string :=
  string_of_list_ascii
    (reverse (lstrip_list (reverse (lstrip_list (list_ascii_of_string s))))).

(** [s.lower()], on the code points below 256. *)
Definition lower_char (c : ascii) : ascii :=
  let n := ord c in
  if ((65 <=? n) && (n <=? 90)) ||
     ((192 <=? n) && (n <=? 222) && negb (n =? 215))
  then chr (n + 32) else c.

Definition lower (s : string) : string :=
  string_of_list_ascii (lower_char <$> list_ascii_of_string s).

(** [s.upper()], on the code points below 256, as Python 3 has it: the
    capital of the sharp s, of code point 223, is the two letters SS.  The
    capitals of the y with diaeresis (255) and of the micro sign (181) are
    beyond code point 255: the two characters stand for their capitals,
    which no other character below 256 has as its capital. *)
Definition upper_char (c : ascii) : string :=
  let n := ord c in
  if n =? 223 then "SS"
  else if ((97 <=? n) && (n <=? 122)) ||
          ((224 <=? n) && (n <=? 254) && negb (n =? 247))
  then String (chr (n - 32)) ""
  else String c "".

Fixpoint upper (s : string) : string :=
  match s with
  | EmptyString => EmptyString
  | String c s => upper_char c +:+ upper s
  end.

(** The value of a string of decimal digits, [acc] being the value of the
    digits before it; [None] when a character is not a digit. *)
Fixpoint digits_value (l : list ascii) (acc : Z) : option Z :=
  match l with
  | [] => Some acc
  | c :: l =>
      let n := ord c in
      if (48 <=? n) && (n <=? 57) then digits_value l (10 * acc + (n - 48))
      else None
  end.

(** The double quote, for the texts that hold one. *)
Definition dquote : string := String (chr 34) "".

(** ** dummyteletype.py *)

Module Teletype.

(** Constants (ASCII, then Baudot). *)
Definition ESC : Z := 0x1b.
Definition CTLC : Z := 0x03.
Definition BLANKKEY : Z := 0x00.

(** What the port's logger received. *)
Inductive logrec : Type :=
| Info (s : string)
| CannotType (inbyte : ascii).   (* logger.error("Cannot type %s ...") *)

(** The fields of a [Dummyteletype] that [read] and [write] use.  A shift
    state is [None] or the shift code-point last seen. [flushtimer] counts
    the timers started so far, the last one being the only one not
    cancelled. *)
Record tty : Type := Tty {
  inshift : option Z;
  outshift : option Z;
  outline : string;
  flushtimer : option nat;
  logged : list logrec
}.

Definition set_inshift (st : tty) (v : option Z) : tty :=
  Tty v (outshift st) (outline st) (flushtimer st) (logged st).
Definition set_outshift (st : tty) (v : option Z) : tty :=
  Tty (inshift st) v (outline st) (flushtimer st) (logged st).
Definition set_outline (st : tty) (v : string) : tty :=
  Tty (inshift st) (outshift st) v (flushtimer st) (logged st).
Definition set_flushtimer (st : tty) (v : option nat) : tty :=
  Tty (inshift st) (outshift st) (outline st) v (logged st).
Definition log (st : tty) (r : logrec) : tty :=
  Tty (inshift st) (outshift st) (outline st) (flushtimer st) (logged st ++ [r]).

(** [__init__]. *)
Definition init : tty := Tty None None "" None [].

(** [flushOutput]: log the queued line, if any, and clear it. *)
Definition flushOutput (st : tty) : tty :=
  if (0 <? String.length (outline st))%nat
  then set_outline (log st (Info (outline st))) ""
  else st.

(** [intext.encode("ASCII","replace")]: a character outside ASCII becomes
    a question mark. *)
Definition encode_ascii_replace (intext : string) : list ascii :=
  (λ c, if 128 <=? ord c then chr 63 else c) <$> list_ascii_of_string intext.

Section Codec.

(** The module [baudot] is not part of the sources at hand: its class
    constants and its two conversions are parameters.
    [chToBaudot ch] is the pair [(bb, shift)], either of which may be
    [None]; [chToASCII bb shift] is a character or [None]. *)
Variables FIGS LTRS CR : Z.
Variable chToBaudot : ascii → option Z * option Z.
Variable chToASCII : Z → option Z → option ascii.

(** *** write *)

(** One turn of the loop of [write]. *)
Definition write_byte (st : tty) (bb : Z) : tty :=
  if decide (bb = FIGS) then set_outshift st (Some bb)
  else if decide (bb = LTRS) then set_outshift st (Some bb)
  else
    match chToASCII bb (outshift st) with
    | Some ch =>
        if decide (ch = chr 10 ∨ ch = chr 13)
        then flushOutput st
        else set_outline st (outline st +:+ String ch "")
    | None => st
    end.

Definition write (st : tty) (s : list Z) : tty :=
  let st := foldl write_byte st s in
  let st := set_inshift st (outshift st) in
  (* cancel the old timer, start a new one *)
  set_flushtimer st (Some (from_option S O (flushtimer st))).

(** The timer firing runs [flushOutput]. *)
Definition timer_fires (st : tty) : tty := flushOutput st.

(** *** read *)

(** The special cases and the conversion of one key: [(bb, shift)] and
    the state after the BREAK message. *)
Definition key_code (st : tty) (inbyte : ascii) : option Z * option Z * tty :=
  if decide (inbyte = chr ESC)
  then (Some 0, None, log st (Info "Keyboard simulated BREAK"))
  else if decide (inbyte = chr 8 ∨ inbyte = chr 0x7f)
  then (Some BLANKKEY, None, st)
  else (chToBaudot inbyte, st).

(** [bytearray.append]. *)
Definition append (baudotread : list Z) (b : Z) (st : tty) : outcome tty (list Z) :=
  if is_byte b then Ret (baudotread ++ [b]) st else Raise ValueError st.

(** One turn of the loop of [read], [baudotread] being the bytes assembled
    so far. *)
Definition read_char (st : tty) (baudotread : list Z) (inbyte : ascii)
  : outcome tty (list Z) :=
  if decide (inbyte = chr CTLC)
  then Exit 0 (log st (Info "Control-C abort"))
  else
    let inbyte := if decide (inbyte = chr 10) then chr 13 else inbyte in
    let '(bb, shift, st) := key_code st inbyte in
    let shifted :=
      match shift with
      | Some sh =>
          if decide (Some sh = inshift st) then Ret baudotread st
          else match append baudotread sh st with
               | Ret bs st => Ret bs (set_inshift st (Some sh))
               | o => o
               end
      | None => Ret baudotread st
      end in
    match shifted with
    | Ret baudotread st =>
        match bb with
        | None => Ret baudotread (log st (CannotType inbyte))
        | Some b => append baudotread b st
        end
    | o => o
    end.

Fixpoint read_loop (st : tty) (baudotread : list Z) (intexta : list ascii)
  : outcome tty (list Z) :=
  match intexta with
  | [] => Ret baudotread st
  | inbyte :: rest =>
      match read_char st baudotread inbyte with
      | Ret baudotread st => read_loop st baudotread rest
      | o => o
      end
  end.

(** [read], [intext] being what [getch] returned. *)
Definition read (st : tty) (intext : string) : outcome tty (list Z) :=
  let st := flushOutput st in
  match read_loop st [] (encode_ascii_replace intext) with
  | Ret baudotread st =>
      if decide (length baudotread ≠ 1%nat)
      then append baudotread CR st
      else Ret baudotread st
  | o => o
  end.

(** *** The rules the properties below are stated with *)

(** The output shift a stream leaves behind: the last shift code-point in
    it, or the shift before it. *)
Definition final_shift (cur : option Z) (s : list Z) : option Z :=
  foldl (λ cur bb, if decide (bb = FIGS ∨ bb = LTRS) then Some bb else cur) cur s.

(** The key a character stands for, after a newline became a CR. *)
Definition keyed (c : ascii) : ascii := if decide (c = chr 10) then chr 13 else c.

(** The pair [(bb, shift)] of a key. *)
Definition key_of (c : ascii) : option Z * option Z := (key_code init c).1.

(** The stream the shift rule describes: before the code-point of a key
    comes its shift code-point, if and only if the shift the key requires
    is defined and differs from the current shift, which it then becomes. *)
Fixpoint shift_keyed (cur : option Z) (keys : list (option Z * option Z)) : list Z :=
  match keys with
  | [] => []
  | (bb, shift) :: keys =>
      if decide (is_Some shift ∧ shift ≠ cur)
      then option_list shift ++ option_list bb ++ shift_keyed shift keys
      else option_list bb ++ shift_keyed cur keys
  end.

(** The input shift state after these keys. *)
Definition shift_after (cur : option Z) (keys : list (option Z * option Z)) : option Z :=
  foldl (λ cur k, if decide (is_Some k.2 ∧ k.2 ≠ cur) then k.2 else cur) cur keys.

(** Number of places where two neighbours of a list differ. *)
Fixpoint changes (l : list (option Z)) : nat :=
  match l with
  | x :: l' =>
      match l' with
      | y :: _ => (if decide (x = y) then 0 else 1) + changes l'
      | [] => 0
      end
  | [] => 0
  end%nat.

(** A shift code-point. *)
Definition is_shift (b : Z) : Prop := b = LTRS ∨ b = FIGS.
#[global] Instance is_shift_dec b : Decision (is_shift b).
Proof. unfold is_shift. apply _. Defined.

(** A key whose code-point is no shift code-point and whose shift, when it
    has one, is LTRS or FIGS. *)
Definition plain_key (k : option Z * option Z) : Prop :=
  (∀ b, k.1 = Some b → ¬ is_shift b) ∧ (∀ s, k.2 = Some s → is_shift s).

(** A character that the codec gives a code-point. *)
Definition representable (c : ascii) : Prop := is_Some (chToBaudot c).1.

(** A character that prints: it is ASCII, is none of the keys [read]
    treats itself (control-C, newline, ESC, backspace, delete), is no line
    end, and the codec takes it to a code-point, no shift code-point, that
    it takes back to the character in the shift it names (in every shift
    when it names none). *)
Definition printable (c : ascii) : Prop :=
  ord c < 128 ∧
  (c ∉ [chr CTLC; chr 10; chr 13; chr ESC; chr 8; chr 0x7f]) ∧
  ∃ b, (chToBaudot c).1 = Some b ∧ is_byte b = true ∧ ¬ is_shift b ∧
    match (chToBaudot c).2 with
    | Some s => is_shift s ∧ is_byte s = true ∧ chToASCII b (Some s) = Some c
    | None => ∀ o, chToASCII b o = Some c
    end.

(** The CR code-point is a byte, is no shift code-point and prints as a
    line end in every shift. *)
Definition line_end_ok : Prop :=
  is_byte CR = true ∧ ¬ is_shift CR ∧
  ∀ o, chToASCII CR o = Some (chr 13) ∨ chToASCII CR o = Some (chr 10).

(** The text is on the output line: waiting in the line buffer, or
    delivered to the log as one line. *)
Definition on_output_line (text : string) (before after : tty) : Prop :=
  (outline after = text ∧ logged after = logged before) ∨
  (outline after = "" ∧ logged after = logged before ++ [Info text]).

(** What [read] leaves alone: the output side and the timer; the log only
    grows. *)
Definition read_frame (st st' : tty) : Prop :=
  outline st' = outline st ∧ outshift st' = outshift st ∧
  flushtimer st' = flushtimer st ∧ ∃ l, logged st' = logged st ++ l.

(** A line end, as [write] sees it. *)
Definition is_eol (c : ascii) : Prop := c = chr 10 ∨ c = chr 13.

(** The characters a stream stands for: a shift code-point changes the
    shift in force for the code-points after it, and a code-point without
    a character in that shift stands for none. *)
Fixpoint decoded (cur : option Z) (s : list Z) : list ascii :=
  match s with
  | [] => []
  | bb :: s =>
      if decide (bb = FIGS ∨ bb = LTRS) then decoded (Some bb) s
      else option_list (chToASCII bb cur) ++ decoded cur s
  end.

(** A key that [read] gives to the codec and for which the codec has
    neither a code-point nor a shift. *)
Definition untypable (c : ascii) : Prop :=
  (keyed c ∉ [chr CTLC; chr ESC; chr 8; chr 0x7f]) ∧ c ≠ chr CTLC ∧
  chToBaudot (keyed c) = (None, None).

(** A key all of whose code-points, its own and the one of the shift it
    requires, are in the range of a byte. *)
Definition byte_key (c : ascii) : Prop :=
  (∀ b, (key_of (keyed c)).1 = Some b → is_byte b = true) ∧
  (∀ s, (key_of (keyed c)).2 = Some s → is_byte s = true).

End Codec.

(** A codec to instantiate the parameters with: the US-TTY tables of the
    five-unit code, letters case and figures case, indexed by code-point.
    The two shift code-points have no character. *)
Module USTTY.

Definition FIGS : Z := 0x1b.
Definition LTRS : Z := 0x1f.
Definition CR : Z := 0x08.

Definition ltrs : list (option ascii) :=
  [ Some (chr 0); Some "E"; Some (chr 10); Some "A"; Some " "; Some "S";
    Some "I"; Some "U"; Some (chr 13); Some "D"; Some "R"; Some "J";
    Some "N"; Some "F"; Some "C"; Some "K"; Some "T"; Some "Z"; Some "L";
    Some "W"; Some "H"; Some "Y"; Some "P"; Some "Q"; Some "O"; Some "B";
    Some "G"; None; Some "M"; Some "X"; Some "V"; None ]%char.

Definition figs : list (option ascii) :=
  [ Some (chr 0); Some "3"; Some (chr 10); Some "-"; Some " "; Some (chr 7);
    Some "8"; Some "7"; Some (chr 13); Some "$"; Some "4"; Some (chr 39);
    Some ","; Some "!"; Some ":"; Some "("; Some "5"; Some (chr 34);
    Some ")"; Some "2"; Some "#"; Some "6"; Some "0"; Some "1"; Some "9";
    Some "?"; Some "&"; None; Some "."; Some "/"; Some ";"; None ]%char.

Definition chToASCII (bb : Z) (shift : option Z) : option ascii :=
  if bb <? 0 then None
  else if decide (shift = Some FIGS) then mjoin (figs !! Z.to_nat bb)
  else mjoin (ltrs !! Z.to_nat bb).

Fixpoint index_of (c : ascii) (tab : list (option ascii)) (i : Z) : option Z :=
  match tab with
  | [] => None
  | x :: tab => if decide (x = Some c) then Some i else index_of c tab (i + 1)
  end.

Definition chToBaudot (c : ascii) : option Z * option Z :=
  match index_of c ltrs 0, index_of c figs 0 with
  | Some i, Some j => if decide (i = j) then (Some i, None) else (Some i, Some LTRS)
  | Some i, None => (Some i, Some LTRS)
  | None, Some j => (Some j, Some FIGS)
  | None, None => (None, None)
  end.

Definition write := write FIGS LTRS chToASCII.
Definition read := read CR chToBaudot.

End USTTY.

(** A Teletype whose shift states differ: LTRS was written, then the
    figure 1 was read and the code-points read were not written back. *)
Definition desync : tty := Tty (Some 27) (Some 31) "" (Some 0%nat) [].

End Teletype.

(** ** twiliofeed.py *)

Module Twilio.

(** *** The server *)

(** A value passed as [v1] or [v2] of a server command. *)
Inductive pyval : Type :=
| VInt (n : Z)
| VStr (s : string).

(** Truth value of an optional argument, as in [if v1 :]. *)
Definition truthy (v : option pyval) : bool :=
  match v with
  | None => false
  | Some (VInt n) => negb (n =? 0)
  | Some (VStr s) => negb (bool_decide (s = ""))
  end.

(** The query fields of a command URL besides the account and the phone
    number, which are the same in all of them: [cmd], and [v1] and [v2]
    when they were put in. *)
Record request : Type := Request {
  cmd : string;
  v1 : option pyval;
  v2 : option pyval
}.

(** A tag below a [<message>] tag: its name and its [.string], which is
    [None] when the tag does not hold exactly one string. *)
Record tag : Type := Tag {
  name : string;
  string_ : option string
}.

(** What [handlereply] looks at in a reply once it is parsed: the
    [<message>] tags in document order, each with its child tags. *)
Definition message : Type := list tag.
Definition reply : Type := list message.

(** What the body of [doservercmd] comes to: an [IOError] of [urlopen]
    or [read] (a [URLError], a timeout of the socket), another exception,
    such as the [BadStatusLine] and the [IncompleteRead] of [httplib],
    which are no [IOError], or the [ValueError] of [unicode(result)] on a
    reply that is not ASCII, or the reply. *)
Inductive netresult : Type :=
| NetError (message : string)
| NetRaise (e : exn)
| NetReply (replyxml : reply).

(** The server: its answer to a request, given the requests sent before. *)
Definition server : Type := list request → request → netresult.

(** *** The feed *)

(** An item of the feed: a message built from the fields of a
    [<message>] tag, carrying its serial number, or an error item. *)
Inductive feeditem : Type :=
| MsgItem (serial : string) (fields : gmap string string)
| ErrorItem (msg : option string).

(** [item.serial]; an error item has no such attribute. *)
Definition item_serial (item : feeditem) : option string :=
  match item with
  | MsgItem serial _ => Some serial
  | ErrorItem _ => None
  end.

(** The fields of a [Twiliofeed] that polling uses, with the requests
    sent so far and the warnings logged. *)
Record feed : Type := Feed {
  lastserial : Z;
  donequeue : list feeditem;
  inqueue : list feeditem;
  sent : list request;
  warnings : list string
}.

Definition set_lastserial (st : feed) (v : Z) : feed :=
  Feed v (donequeue st) (inqueue st) (sent st) (warnings st).
Definition set_donequeue (st : feed) (v : list feeditem) : feed :=
  Feed (lastserial st) v (inqueue st) (sent st) (warnings st).
Definition put_inqueue (st : feed) (item : feeditem) : feed :=
  Feed (lastserial st) (donequeue st) (inqueue st ++ [item]) (sent st) (warnings st).
Definition record_sent (st : feed) (r : request) : feed :=
  Feed (lastserial st) (donequeue st) (inqueue st) (sent st ++ [r]) (warnings st).
Definition logwarning (st : feed) (msg : string) : feed :=
  Feed (lastserial st) (donequeue st) (inqueue st) (sent st) (warnings st ++ [msg]).

(** [__init__]. *)
Definition init : feed := Feed (-1) [] [] [] [].

(** The state a call ends in. *)
Definition state_of {A} (r : result feed A) : feed :=
  match r with Ok _ st | Fail _ st => st end.

(** Modelled from the spec: [logerror] belongs to the base class in
    [feedmanager], which is not among the sources; the adapter "emits a
    single error-flagged Item describing the failure". *)
Definition logerror (st : feed) (msg : option string) : feed :=
  put_inqueue st (ErrorItem msg).

(** [itemdone]. *)
Definition itemdone (st : feed) (item : feeditem) : feed :=
  match item_serial item with
  | Some serial =>
      if truthy (Some (VStr serial))
      then set_donequeue st (donequeue st ++ [item]) else st
  | None => st
  end.

(** The request [doservercmd] sends. *)
Definition doservercmd_request (cmd : string) (v1 v2 : option pyval) : request :=
  Request cmd (if truthy v1 then v1 else None) (if truthy v2 then v2 else None).

(** What the caller of [doservercmd] gets: the reply, or the exception
    raised. *)
Definition raised (r : netresult) : exn + reply :=
  match r with
  | NetError message => inl (IOError message)
  | NetRaise e => inl e
  | NetReply replyxml => inr replyxml
  end.

(** [doservercmd]: the request is sent and the server answers; nothing is
    caught here. *)
Definition doservercmd (srv : server) (st : feed) (cmd : string)
    (v1 v2 : option pyval) : (exn + reply) * feed :=
  let r := doservercmd_request cmd v1 v2 in
  (raised (srv (sent st) r), record_sent st r).

(** [fetcherror]: the text, and the state with the warning logged. *)
Definition fetcherror (st : feed) (msgtxt : string) (message : option string)
  : string * feed :=
  let msgtxt :=
    match message with
    | Some m => if (0 <? String.length m)%nat
                then msgtxt +:+ ". (" +:+ m +:+ ")" else msgtxt
    | None => msgtxt
    end in
  let msgtxt := msgtxt +:+ "." in
  (msgtxt, logwarning st msgtxt).

(** *** Reception times *)

(** A naive [datetime] without microseconds, as [strptime] makes them: the
    seconds since 0001-01-01 00:00:00.  The last one that [datetime] has
    is 9999-12-31 23:59:59. *)
Definition MAXSECONDS : Z := 315537897599.

(** What [maketimelocal] reads in the module [time], and
    [datetime.datetime.strptime(rcvtime, "%Y-%m-%d %H:%M:%S")], which
    belongs to the library: [None] stands for its [ValueError]. *)
Record clock : Type := Clock {
  tm_isdst : Z;
  daylight : Z;
  altzone : Z;
  timezone : Z;
  strptime : string → option Z
}.

(** [maketimelocal]: the sum is an [OverflowError] when it leaves the
    dates that [datetime] has. *)
Definition maketimelocal (clk : clock) (dt : Z) : exn + Z :=
  let offsetsecs :=
    if negb (tm_isdst clk =? 0) && negb (daylight clk =? 0)
    then - altzone clk else - timezone clk in
  let local := dt + offsetsecs in
  if (0 <=? local) && (local <=? MAXSECONDS) then inr local
  else inl OverflowError.

Section Polling.

(** [int] on a string: the number, or [None] for a [ValueError]. *)
Variable py_int : string → option Z.

(** The clock of the machine. *)
Variable clk : clock.

(** [processmsg], as far as polling goes: the item is queued.  A message
    without [rcvtime] makes [strptime] raise a [TypeError]; the
    [ValueError] of [strptime] is caught, the [OverflowError] of
    [maketimelocal] is not.  The texts of the item come from modules that
    are not among the sources ([msgutils], [feedmanager]): the item keeps
    the fields they are computed from. *)
Definition processmsg (st : feed) (fields : gmap string string)
  : result feed () :=
  let queue (st : feed) : result feed () :=
    match fields !! "serial" with
    | Some serial => Ok () (put_inqueue st (MsgItem serial fields))
    | None => Fail (KeyError "serial") st
    end in
  match fields !! "rcvtime" with
  | None => Fail TypeError st
  | Some rcvtime =>
      match strptime clk rcvtime with
      | None => queue st
      | Some timestamp =>
          match maketimelocal clk timestamp with
          | inl e => Fail e st
          | inr _ => queue st
          end
      end
  end.

(** [handlemsg]. *)
Definition handlemsg (st : feed) (fields : gmap string string)
  : result feed () :=
  let errormsg := default "1" (fields !! "errormsg") in
  if negb (bool_decide (errormsg = "")) && negb (bool_decide (errormsg = "0"))
  then Ok () (logerror st (fields !! "smsbody"))
  else processmsg st fields.

(** The fields of one [<message>] tag: the inner loop of [handlereply]. *)
Fixpoint message_fields (tags : list tag) (fields : gmap string string)
  : exn + gmap string string :=
  match tags with
  | [] => inr fields
  | t :: tags =>
      match string_ t with
      | None => inl (AttributeError "'NoneType' object has no attribute 'strip'")
      | Some text =>
          let v := strip text in
          if bool_decide (v ≠ "")
          then message_fields tags (<[lower (strip (name t)) := v]> fields)
          else message_fields tags fields
      end
  end.

(** The [try] block of [handlereply]: [newserial] when it ends, the
    exception that ended it if any, and the state. *)
Fixpoint handlereply_try (messagetags : list message) (newserial : Z) (st : feed)
  : Z * option exn * feed :=
  match messagetags with
  | [] => (newserial, None, st)
  | messagetag :: messagetags =>
      match message_fields messagetag ∅ with
      | inl e => (newserial, Some e, st)
      | inr fields =>
          match fields !! "serial" with
          | None =>
              (newserial,
               Some (EnvironmentError
                       "Messaging server returned XML without a serial number"),
               st)
          | Some serial =>
              match py_int serial with
              | None => (newserial, Some ValueError, st)
              | Some n =>
                  let newserial := newserial `max` n in
                  match handlemsg st fields with
                  | Ok _ st => handlereply_try messagetags newserial st
                  | Fail e st => (newserial, Some e, st)
                  end
              end
          end
      end
  end.

(** The exceptions the [except] clause of [handlereply] names
    ([IOError] is an [EnvironmentError]), with their text. *)
Definition format_error (e : exn) : option string :=
  match e with
  | EnvironmentError message | AttributeError message | IOError message =>
      Some message
  | _ => None
  end.

(** [handlereply]. *)
Definition handlereply (st : feed) (replyxml : reply) : result feed Z :=
  match handlereply_try replyxml (-1) st with
  | (newserial, None, st) => Ok newserial st
  | (newserial, Some e, st) =>
      match format_error e with
      | Some message =>
          match handlemsg st {[ "errormsg" := "1"; "smsbody" := message ]} with
          | Ok _ st => Ok newserial st
          | Fail e st => Fail e st
          end
      | None => Fail e st
      end
  end.

(** [markitemsdone], the queue being [q]: the item is taken from the queue
    before its request is sent, and only the handler of [IOError] puts it
    back. *)
Fixpoint markitemsdone_from (srv : server) (q : list feeditem) (st : feed)
  : result feed bool :=
  match q with
  | [] => Ok true (set_donequeue st [])
  | item :: q =>
      let st := set_donequeue st q in
      match item_serial item with
      | None =>
          Fail (AttributeError "'FeedItem' object has no attribute 'serial'") st
      | Some serial =>
          match doservercmd srv st "printed" (Some (VStr serial)) (Some (VStr serial)) with
          | (inr _, st) => markitemsdone_from srv q st
          | (inl (IOError message), st) =>
              let '(msgtxt, st) :=
                fetcherror st "Network error recording message as printed"
                  (Some message) in
              let st := logerror st (Some msgtxt) in
              Ok false (set_donequeue st (donequeue st ++ [item]))
          | (inl e, st) => Fail e st
          end
      end
  end.

Definition markitemsdone (srv : server) (st : feed) : result feed bool :=
  markitemsdone_from srv (donequeue st) st.

(** The [while True] loop of [fetchitems]; [None] when [fuel] polls did
    not end it. *)
Fixpoint fetch_loop (fuel : nat) (srv : server) (st : feed)
  : option (result feed ()) :=
  match fuel with
  | O => None
  | S fuel =>
      match doservercmd srv st "getnext" (Some (VInt (lastserial st + 1))) None with
      | (inl e, st) => Some (Fail e st)
      | (inr replyxml, st) =>
          match handlereply st replyxml with
          | Ok newserial st =>
              if negb (newserial =? 0) && (lastserial st <? newserial)
              then fetch_loop fuel srv (set_lastserial st newserial)
              else Some (Ok () st)
          | Fail e st => Some (Fail e st)
          end
      end
  end.

(** The body of the [try] of [fetchitems]; [idle] is what [isfeedidle()]
    answers when it is asked. *)
Definition fetchitems_try (fuel : nat) (srv : server) (idle : bool) (st : feed)
  : option (result feed ()) :=
  match markitemsdone srv st with
  | Ok false st => Some (Ok () st)
  | Ok true st =>
      let st := if idle then set_lastserial st (-1) else st in
      fetch_loop fuel srv st
  | Fail e st => Some (Fail e st)
  end.

(** [fetchitems]. *)
Definition fetchitems (fuel : nat) (srv : server) (idle : bool) (st : feed)
  : option (result feed ()) :=
  match fetchitems_try fuel srv idle st with
  | Some (Fail (AttributeError message) st) =>
      let '(msgtxt, st) :=
        fetcherror st "Internal error when fetching message" (Some message) in
      Some (Ok () (logerror st (Some msgtxt)))
  | Some (Fail (IOError message) st) =>
      let '(msgtxt, st) := fetcherror st "Input or output error" (Some message) in
      Some (Ok () (logerror st (Some msgtxt)))
  | o => o
  end.

End Polling.

(** A reading of decimal numerals to instantiate [py_int] with: an
    optional sign and one digit or more. *)
Definition dec_int (s : string) : option Z :=
  match list_ascii_of_string s with
  | [] => None
  | c :: l =>
      if bool_decide (c = "-"%char)
      then match l with [] => None | _ => Z.opp <$> digits_value l 0 end
      else if bool_decide (c = "+"%char)
      then match l with [] => None | _ => digits_value l 0 end
      else digits_value (c :: l) 0
  end.

(** *** The rules the properties below are stated with *)

(** The request that records the item of serial number [serial] as
    printed, and the poll made when the cursor is [lastserial]. *)
Definition printed_request (serial : string) : request :=
  doservercmd_request "printed" (Some (VStr serial)) (Some (VStr serial)).
Definition getnext_request (lastserial : Z) : request :=
  doservercmd_request "getnext" (Some (VInt (lastserial + 1))) None.

(** The acknowledgements of the items of a queue, in the order of the
    queue. *)
Definition ack_requests (q : list feeditem) : list request :=
  printed_request <$> omap item_serial q.

(** The request that records serial number [serial] as printed, as the
    server is to get it: the command is [printed], and [v1] and [v2] both
    are the serial number.  The requests for the items of a queue, in the
    order of the queue. *)
Definition printed_query (serial : string) : request :=
  Request "printed" (Some (VStr serial)) (Some (VStr serial)).
Definition printed_queries (q : list feeditem) : list request :=
  printed_query <$> omap item_serial q.

(** What is in the queue of done items: [itemdone] puts nothing else. *)
Definition has_serial (item : feeditem) : Prop :=
  ∃ serial, item_serial item = Some serial ∧ truthy (Some (VStr serial)) = true.

(** A poll cycle is a call of [fetchitems]; a request is an
    acknowledgement or a poll. *)
Definition is_ack (r : request) : Prop := cmd r = "printed".
Definition is_poll (r : request) : Prop := cmd r = "getnext".

(** *** The other functions of the module *)

(** [expandplaceabbrev], the dictionary after the call. *)
Definition expandplaceabbrev (fields : gmap string string) (fieldname : string)
    (placetable : gmap string string) : gmap string string :=
  match fields !! fieldname with
  | Some abbrev =>
      match placetable !! abbrev with
      | Some place => <[fieldname := place]> fields
      | None => fields
      end
  | None => fields
  end.

(** [formatphonenumber]; the argument may be [None]. *)
Definition formatphonenumber (s : option string) : string :=
  match s with
  | None => "(UNKNOWN)"
  | Some s =>
      if bool_decide (s = "") then "(UNKNOWN)"
      else if bool_decide (String.length s = 12%nat) && String.prefix "+1" s
      then "(" +:+ substring 2 3 s +:+ ") " +:+ substring 5 3 s +:+ "-" +:+
           substring 8 (String.length s) s
      else if String.prefix "+" s
      then "INTL " +:+ substring 1 (String.length s) s
      else s
  end.

(** [pattern.sub(rep, s)] for a pattern that is a text without special
    characters and is not empty: the occurrences are replaced from the
    left, an occurrence beginning where the one before it ended at the
    earliest.  [skip] characters belong to the occurrence just replaced. *)
Fixpoint sub_from (pat rep : list ascii) (skip : nat) (l : list ascii)
  : list ascii :=
  match l with
  | [] => []
  | c :: l' =>
      match skip with
      | S skip => sub_from pat rep skip l'
      | O =>
          if bool_decide (pat `prefix_of` l)
          then rep ++ sub_from pat rep (length pat - 1) l'
          else c :: sub_from pat rep 0 l'
      end
  end.

Definition sub (pat rep s : string) : string :=
  string_of_list_ascii
    (sub_from (list_ascii_of_string pat) (list_ascii_of_string rep) 0
       (list_ascii_of_string s)).

(** [cleanhtml]: the [return] is inside the loop over [HTMLREWRITES], so
    the first rule, of pattern [&mdash;], is the only one applied. *)
Definition cleanhtml (s : string) : string := sub "&mdash;" "-" s.

(** What [sendSMS] looks at in what [twiliopost] returns: the status,
    and for a reply that was parsed the [.string] of its first [status]
    tag, when it has such a tag. *)
Definition posted : Type := option Z * option (option (option string)).

(** [sendSMS], [tried] being what [twiliopost] does: it raises, or it
    returns [p].  [twiliopost] handles the [IOError] of the network
    itself, and the handler of [sendSMS] takes the ones it gets.  The
    result is what [sendSMS] returns ([None] or the text of the problem)
    or raises, the feed, and what the logger got at level [info], which
    the first statement writes to. *)
Definition sendSMS (st : feed) (info : list string) (number text : string)
    (tried : exn + posted) : (exn + option string) * feed * list string :=
  let info := info ++ ["Sending SMS to " +:+ number +:+ ": " +:+ text] in
  let problem (msgtxt : string) (message : option string)
    : (exn + option string) * feed * list string :=
    let '(msgtxt, st) := fetcherror st msgtxt message in
    (inr (Some msgtxt), st, info) in
  match tried with
  | inl (IOError message) => problem "Input or output error" (Some message)
  | inl e => (inl e, st, info)
  | inr (status, tree) =>
      if truthy (VInt <$> status)
      then problem ("Problem No. " +:+ pretty (default 0 status) +:+
                    " sending message") None
      else
        match tree with
        | Some (Some (Some smsstatus)) =>
            if bool_decide (smsstatus ≠ "")
            then
              let smsstatus := lower (strip smsstatus) in
              if bool_decide (smsstatus = "queued") then (inr None, st, info)
              else problem ("Problem " +:+ dquote +:+ smsstatus +:+ dquote +:+
                            " sending message") None
            else problem "Message sending service not responding properly" None
        | _ => problem "Message sending service not responding properly" None
        end
  end.

(** *** More rules *)

(** A decimal digit. *)
Definition is_digit (c : ascii) : Prop := 48 ≤ ord c ≤ 57.

(** The digits of a text, in order. *)
Definition digits (s : string) : list ascii :=
  filter is_digit (list_ascii_of_string s).

(** A reception time that [processmsg] gets through: one that [strptime]
    rejects, which is then printed as it is, or one whose local time is a
    date that [datetime] has. *)
Definition time_ok (clk : clock) (rcvtime : string) : Prop :=
  match strptime clk rcvtime with
  | None => True
  | Some timestamp =>
      let offsetsecs :=
        if bool_decide (tm_isdst clk ≠ 0 ∧ daylight clk ≠ 0)
        then - altzone clk else - timezone clk in
      0 ≤ timestamp + offsetsecs ≤ MAXSECONDS
  end.

#[global] Instance time_ok_dec clk rcvtime : Decision (time_ok clk rcvtime).
Proof. unfold time_ok. destruct (strptime clk rcvtime); apply _. Defined.

(** What a well-formed message stands for: its serial number as a number
    and the item [handlemsg] queues for it, an error item unless its
    [errormsg] field is 0, in which case it has a reception time that is
    [time_ok]. *)
Definition message_item (py_int : string → option Z) (clk : clock)
    (m : message) : option (Z * feeditem) :=
  match message_fields m ∅ with
  | inl _ => None
  | inr fields =>
      serial ← fields !! "serial";
      n ← py_int serial;
      if bool_decide (fields !! "errormsg" = Some "0" ∨
                      fields !! "errormsg" = Some "")
      then
        rcvtime ← fields !! "rcvtime";
        if bool_decide (time_ok clk rcvtime)
        then Some (n, MsgItem serial fields) else None
      else Some (n, ErrorItem (fields !! "smsbody"))
  end.

(** A server that is up: every request gets a reply. *)
Definition responsive (srv : server) : Prop :=
  ∀ sent r, ∃ replyxml, srv sent r = NetReply replyxml.

(** A server none of whose replies takes [handlereply] to a serial number
    above [top]. *)
Definition serials_below (py_int : string → option Z) (clk : clock)
    (srv : server) (top : Z) : Prop :=
  ∀ sent r replyxml st n st',
    srv sent r = NetReply replyxml →
    handlereply py_int clk st replyxml = Ok n st' → n ≤ top.

(** *** Servers and replies for the examples *)

(** A clock on Pacific time in winter, which reads two reception times:
    the one of the messages below and the last second that [datetime]
    has. *)
Definition pacific : clock :=
  Clock 0 1 25200 28800
    (λ rcvtime,
       if bool_decide (rcvtime = "2012-03-12 19:30:00") then Some 63467177400
       else if bool_decide (rcvtime = "9999-12-31 23:59:59") then Some MAXSECONDS
       else None).

(** A clock east of Greenwich, for which the last second is too late. *)
Definition eastern : clock :=
  Clock 0 1 (-7200) (-3600) (strptime pacific).

(** No connection. *)
Definition srv_down : server := λ _ _, NetError "timed out".

(** A well-formed message of serial number [serial]. *)
Definition good_message (serial : string) : message :=
  [Tag "serial" (Some serial); Tag "errormsg" (Some "0");
   Tag "rcvtime" (Some "2012-03-12 19:30:00"); Tag "smsbody" (Some "HELLO")].

(** A well-formed message received in the last second that [datetime]
    has. *)
Definition late_message : message :=
  [Tag "serial" (Some "9"); Tag "errormsg" (Some "0");
   Tag "rcvtime" (Some "9999-12-31 23:59:59"); Tag "smsbody" (Some "HELLO")].

(** A message without a serial number. *)
Definition bad_message : message := [Tag "smsbody" (Some "HELLO")].


(** A server that answers the first request it gets and then goes down. *)
Definition srv_once : server := λ sent _,
  match sent with [] => NetReply [] | _ => NetError "timed out" end.

(** A feed three items of which were printed. *)
Definition done345 : feed :=
  itemdone (itemdone (itemdone init (MsgItem "3" ∅)) (MsgItem "4" ∅))
    (MsgItem "5" ∅).

(** A feed that read up to serial number 7, and the same after one item
    was printed. *)
Definition read7 : feed := set_lastserial init 7.
Definition read7_done3 : feed := itemdone read7 (MsgItem "3" ∅).

(** A server that answers every request with the same reply. *)
Definition srv_const (r : reply) : server := λ _ _, NetReply r.

(** A server that holds one message, of serial number 5, followed by a
    malformed one: a poll from the beginning gets the message, a later
    poll the malformed reply. *)
Definition srv_then_bad : server := λ _ r,
  if bool_decide (v1 r = None) then NetReply [good_message "5"]
  else NetReply [bad_message].

End Twilio.

(** ** nwsweatherreport.py *)

Module NWS.

(** An [xml.etree.ElementTree.Element]: its tag, its attributes, the text
    before its first child if any, and its children. *)
Inductive element : Type :=
| Element (tag : string) (attrib : gmap string string) (text : option string)
    (children : list element).

Definition tag (tree : element) : string :=
  match tree with Element t _ _ _ => t end.
Definition attrib (tree : element) : gmap string string :=
  match tree with Element _ a _ _ => a end.
Definition text (tree : element) : option string :=
  match tree with Element _ _ x _ => x end.
Definition children (tree : element) : list element :=
  match tree with Element _ _ _ l => l end.

(** A key that [find] reads as the name of a tag: one character or more,
    all of them letters, digits, hyphens or underscores.  [ElementPath]
    reads other keys as paths ([b/c], [*], [.], [..], predicates in
    brackets); every key that the module passes is such a name. *)
Definition name_char (c : ascii) : bool :=
  let n := ord c in
  ((48 <=? n) && (n <=? 57)) || ((65 <=? n) && (n <=? 90)) ||
  ((97 <=? n) && (n <=? 122)) || (n =? 45) || (n =? 95).

Definition tagname (key : string) : Prop :=
  key ≠ "" ∧ Forall name_char (list_ascii_of_string key).

#[global] Instance tagname_dec key : Decision (tagname key).
Proof. unfold tagname. apply _. Defined.

(** [tree.find(key)], for a key that is a [tagname]: the first child of
    that tag.  What [find] does with a path is not modelled, and the
    properties of the functions that pass their key to [find] are stated
    for the keys that are a [tagname]. *)
Definition find (tree : element) (key : string) : option element :=
  head (filter (λ item, tag item = key) (children tree)).

(** The tree and all that is below it, in document order. *)
Fixpoint descendants (tree : element) : list element :=
  tree ::
    match tree with
    | Element _ _ _ items =>
        (fix below (l : list element) : list element :=
           match l with
           | [] => []
           | item :: l => descendants item ++ below l
           end) items
    end.

(** [tree.iter(key)]: the key [*] stands for every tag; any other key is
    compared with the tags as it is. *)
Definition iter (tree : element) (key : string) : list element :=
  if bool_decide (key = "*") then descendants tree
  else filter (λ item, tag item = key) (descendants tree).

(** The match of [([+-])(\d\d):(\d\d)] at the start of a string: the
    sign and the two numbers. *)
Definition match_offset (offsetpart : string) : option (ascii * Z * Z) :=
  match list_ascii_of_string offsetpart with
  | sign :: h1 :: h2 :: colon :: m1 :: m2 :: _ =>
      if bool_decide (sign = "+"%char ∨ sign = "-"%char) &&
         bool_decide (colon = ":"%char)
      then
        match digits_value [h1; h2] 0, digits_value [m1; m2] 0 with
        | Some hours, Some minutes => Some (sign, hours, minutes)
        | _, _ => None
        end
      else None
  | _ => None
  end.

Section Clock.

(** The modules [datetime] and [placenames] are not among the sources.
    [strptime s] stands for
    [datetime.datetime.strptime(s, "%Y-%m-%dT%H:%M:%S")], [None] being a
    [ValueError]; [minus_minutes dt offset] for
    [dt - datetime.timedelta(minutes=offset)], [None] being an
    [OverflowError]; [replace_tzinfo dt] for
    [dt.replace(tzinfo=timezoneutc)]. *)
Variable datetime : Type.
Variable strptime : string → option datetime.
Variable minus_minutes : datetime → Z → option datetime.
Variable replace_tzinfo : datetime → datetime.
Variable CODE_STATE : gmap string string.

(** [parseisotime].  In the branch of Zulu time the local [offset] is
    read before anything was assigned to it. *)
Definition parseisotime (s : string) : exn + datetime :=
  let s := strip s in
  let datetimepart := substring 0 19 s in
  let offsetpart := substring 19 (String.length s) s in
  match strptime datetimepart with
  | None => inl ValueError
  | Some dt =>
      if (0 <? String.length offsetpart)%nat
      then
        offset ←
          (if bool_decide (upper offsetpart = "Z")
           then inl (UnboundLocalError "offset")
           else
             match match_offset offsetpart with
             | None => inl (RuntimeError ("Unable to parse time string: " +:+ s))
             | Some (sign, hours, minutes) =>
                 let offset := hours * 60 + minutes in
                 inr (if bool_decide (sign = "-"%char) then - offset else offset)
             end);
        match minus_minutes dt offset with
        | None => inl OverflowError
        | Some dt => inr (replace_tzinfo dt)
        end
      else inr dt
  end.

(** An [nwsperiod]. *)
Record nwsperiod : Type := Nwsperiod {
  timeinfo : datetime * option string;
  forecasttext : string
}.

(** The fields of an [nwsxml]; [verbose] only adds printing. *)
Record nwsxml : Type := Nwsxml {
  err : option string;
  location : option string;
  creationtime : option datetime;
  latitude : option string;
  longitude : option string;
  perioditems : list nwsperiod
}.

Definition set_err (st : nwsxml) (v : option string) : nwsxml :=
  Nwsxml v (location st) (creationtime st) (latitude st) (longitude st)
    (perioditems st).
Definition set_location (st : nwsxml) (v : option string) : nwsxml :=
  Nwsxml (err st) v (creationtime st) (latitude st) (longitude st)
    (perioditems st).
Definition set_creationtime (st : nwsxml) (v : option datetime) : nwsxml :=
  Nwsxml (err st) (location st) v (latitude st) (longitude st)
    (perioditems st).
Definition set_latitude (st : nwsxml) (v : option string) : nwsxml :=
  Nwsxml (err st) (location st) (creationtime st) v (longitude st)
    (perioditems st).
Definition set_longitude (st : nwsxml) (v : option string) : nwsxml :=
  Nwsxml (err st) (location st) (creationtime st) (latitude st) v
    (perioditems st).
Definition set_perioditems (st : nwsxml) (v : list nwsperiod) : nwsxml :=
  Nwsxml (err st) (location st) (creationtime st) (latitude st)
    (longitude st) v.

(** [__init__]. *)
Definition init : nwsxml := Nwsxml None None None None None [].

(** A method of [nwsxml]: from the object to a value or an exception,
    and the object afterwards. *)
Definition M (A : Type) : Type := nwsxml → result nwsxml A.

#[local] Instance M_ret : MRet M := λ A a st, Ok a st.
#[local] Instance M_bind : MBind M := λ A B f m st,
  match m st with
  | Ok a st => f a st
  | Fail e st => Fail e st
  end.
#[local] Instance M_throw : MThrow exn M := λ A e st, Fail e st.

Definition lift {A} (x : exn + A) : M A :=
  match x with inl e => mthrow e | inr a => mret a end.
Definition require {A} (x : option A) (e : exn) : M A :=
  match x with Some a => mret a | None => mthrow e end.
Definition modify (f : nwsxml → nwsxml) : M () := λ st, Ok () (f st).

(** [_find], the tuple of keys being [key] and [keys]. *)
Fixpoint _find (tree : element) (key : string) (keys : list string)
  : exn + element :=
  match find tree key with
  | None =>
      inl (RuntimeError
             ("NWS weather report XML format unexpected. Did not find " +:+
              dquote +:+ key +:+ dquote +:+ " inside XML tag " +:+
              dquote +:+ tag tree +:+ dquote))
  | Some item =>
      match keys with
      | [] => inr item
      | key :: keys => _find item key keys
      end
  end.

(** [_parseheader].  The test [dwmlitem is None] of the source is never
    true: [_find] returns an item or raises. *)
Definition _parseheader (tree : element) : M () :=
  dwmlitem ← (if bool_decide (tag tree = "dwml") then mret tree
              else lift (_find tree "dwml" []));
  productitem ← lift (_find dwmlitem "head" ["product"]);
  creationitem ← lift (_find productitem "creation-date" []);
  creationtime ← require (text creationitem)
                   (RuntimeError "No forecast creation date/time");
  dt ← lift (parseisotime (strip creationtime));
  modify (λ st, set_creationtime st (Some dt));;
  dataitem ← lift (_find dwmlitem "data" []);
  (if bool_decide (attrib dataitem !! "type" ≠ Some "forecast")
   then mthrow (RuntimeError "No forecast data item") else mret ());;
  locitem ← lift (_find dataitem "location" []);
  pointitem ← lift (_find locitem "point" []);
  modify (λ st, set_latitude st (attrib pointitem !! "latitude"));;
  modify (λ st, set_longitude st (attrib pointitem !! "longitude"));;
  match find locitem "city" with
  | Some cityitem =>
      let state := attrib cityitem !! "state" in
      city ← require (text cityitem) (RuntimeError "No city name");
      (* CODE_STATE.get(state, state) *)
      let state := (λ s, default s (CODE_STATE !! s)) <$> state in
      match state with
      | Some state =>
          modify (λ st, set_location st (Some (city +:+ ", " +:+ state)))
      | None => mthrow TypeError      (* str + None *)
      end
  | None =>
      areaitem ← lift (_find locitem "area-description" []);
      area ← require (text areaitem) (RuntimeError "No area description");
      modify (λ st, set_location st (Some area))
  end.

(** [_parsetimeitems]: the list, or [None] when a time is not available. *)
Fixpoint _parsetimeitems (timeitems : list element)
    (timeitemlist : list (datetime * option string))
  : exn + option (list (datetime * option string)) :=
  match timeitems with
  | [] => inr (Some timeitemlist)
  | timeitem :: timeitems =>
      let periodname := attrib timeitem !! "period-name" in
      match text timeitem with
      | None => inl (RuntimeError "No period date/time in time item")
      | Some periodtime =>
          if bool_decide (strip periodtime = "NA") then inr None
          else
            periodtime ← parseisotime (strip periodtime);
            _parsetimeitems timeitems (timeitemlist ++ [(periodtime, periodname)])
      end
  end.

(** The loop of [_parsetimelayouts]. *)
Fixpoint _parsetimelayouts_loop (timelayouttrees : list element)
    (timelayouts : gmap string (list (datetime * option string)))
  : exn + gmap string (list (datetime * option string)) :=
  match timelayouttrees with
  | [] => inr timelayouts
  | timelayouttree :: timelayouttrees =>
      keytag ← _find timelayouttree "layout-key" [];
      match text keytag with
      | None => inl (RuntimeError "No time layout key found in time layout")
      | Some key =>
          let key := strip key in
          timeitemlist ←
            _parsetimeitems (iter timelayouttree "start-valid-time") [];
          match timeitemlist with
          | Some (timeitem :: timeitems) =>
              _parsetimelayouts_loop timelayouttrees
                (<[key := timeitem :: timeitems]> timelayouts)
          | _ => _parsetimelayouts_loop timelayouttrees timelayouts
          end
      end
  end.

Definition _parsetimelayouts (tree : element)
  : exn + gmap string (list (datetime * option string)) :=
  _parsetimelayouts_loop (iter tree "time-layout") ∅.

(** The texts of a forecast: [forecasttextitem.text.strip()] of each. *)
Fixpoint forecasttexts_loop (forecasttextitems : list element)
    (forecasttexts : list string) : exn + list string :=
  match forecasttextitems with
  | [] => inr forecasttexts
  | forecasttextitem :: forecasttextitems =>
      match text forecasttextitem with
      | None =>
          inl (AttributeError "'NoneType' object has no attribute 'strip'")
      | Some s =>
          forecasttexts_loop forecasttextitems (forecasttexts ++ [strip s])
      end
  end.

(** The loop of [_parseforecasts]. *)
Fixpoint _parseforecasts_loop (wordedforecasts : list element)
    (timelayouts : gmap string (list (datetime * option string))) : M () :=
  match wordedforecasts with
  | [] => mret ()
  | wordedforecast :: wordedforecasts =>
      timelayoutkey ← require (attrib wordedforecast !! "time-layout")
        (RuntimeError "Forecast time layout key not found in data");
      forecasttexts ← lift (forecasttexts_loop (iter wordedforecast "text") []);
      let timelayoutkey := strip timelayoutkey in
      timelayout ← require (timelayouts !! timelayoutkey)
        (RuntimeError ("Time layout key '" +:+ timelayoutkey +:+
                       "' not found in time layouts"));
      (if bool_decide (length timelayout ≠ length forecasttexts)
       then mthrow (RuntimeError
              ("Time layout key '" +:+ timelayoutkey +:+ "' has " +:+
               pretty (length timelayout) +:+
               " forecast times, but there are " +:+
               pretty (length forecasttexts) +:+ " forecasts"))
       else mret ());;
      modify (λ st, set_perioditems st
                (perioditems st ++ zip_with Nwsperiod timelayout forecasttexts));;
      _parseforecasts_loop wordedforecasts timelayouts
  end.

(** [_parseforecasts]. *)
Definition _parseforecasts (tree : element)
    (timelayouts : gmap string (list (datetime * option string))) : M () :=
  _parseforecasts_loop (iter tree "wordedForecast") timelayouts.

(** The body of the [try] of [parse]. *)
Definition parse_try (tree : element) : M () :=
  _parseheader tree;;
  timelayouts ← lift (_parsetimelayouts tree);
  _parseforecasts tree timelayouts.

(** The exceptions the [except] clause of [parse] names ([IOError] is an
    [EnvironmentError]), with their text. *)
Definition caught (e : exn) : option string :=
  match e with
  | EnvironmentError message | IOError message | RuntimeError message
  | ParseError message => Some message
  | _ => None
  end.

(** [parse]. *)
Definition parse (tree : element) : M () := λ st,
  match parse_try tree st with
  | Ok a st => Ok a st
  | Fail e st =>
      match caught e with
      | Some message =>
          Ok () (set_err st (Some ("Unable to interpret weather data: " +:+
                                   message +:+ ".")))
      | None => Fail e st
      end
  end.

(** [asString], when an error was recorded; the forecast is put in words
    by modules that are not among the sources. *)
Definition asString_error (st : nwsxml) : option string :=
  match err st with
  | Some e => if bool_decide (e ≠ "") then Some ("ERROR: " +:+ e) else None
  | None => None
  end.

End Clock.

Arguments err {datetime} _.
Arguments location {datetime} _.
Arguments creationtime {datetime} _.
Arguments perioditems {datetime} _.
Arguments set_err {datetime} _ _.
Arguments init {datetime}.
Arguments asString_error {datetime} _.

(** *** The rules the properties below are stated with *)

(** The exceptions that the [except] clause of [parse] does not name and
    that the parser can raise. *)
Definition escapes (e : exn) : Prop :=
  e = ValueError ∨ e = OverflowError ∨ e = UnboundLocalError "offset" ∨
  e = TypeError ∨ e = AttributeError "'NoneType' object has no attribute 'strip'".

Definition expected (e : exn) : Prop := is_Some (caught e) ∨ escapes e.

(** *** The functions around the parser *)

(** [gettextitem]. *)
Definition gettextitem (tree : element) (key : string) : exn + string :=
  match find tree key with
  | None =>
      inl (RuntimeError
             ("XML document did not contain an expected " +:+ dquote +:+ key +:+
              dquote +:+ " item within " +:+ dquote +:+ tag tree +:+ dquote +:+
              "."))
  | Some item =>
      match text item with
      | None =>
          inl (RuntimeError
                 ("XML document did not contain text for an expected " +:+
                  dquote +:+ key +:+ dquote +:+ " item."))
      | Some t => inr (strip t)
      end
  end.

(** [findfirst]. *)
Definition findfirst (tree : element) (key : string) : option element :=
  head (iter tree key).

(** The loop of [getplacelatlong] over the features: [best] is
    [(bestfeaturename, lat, lng)], [None] as long as no name was picked. *)
Fixpoint bestfeature (city : string) (features : list element)
    (best : option (string * string * string))
  : exn + option (string * string * string) :=
  match features with
  | [] => inr best
  | feature :: features =>
      featurename ← gettextitem feature "FEATURE_NAME";
      if bool_decide (best = None ∨ upper city = upper featurename)
      then
        lat ← gettextitem feature "FEAT_LATITUDE_NMBR";
        lng ← gettextitem feature "FEAT_LONGITUDE_NMBR";
        bestfeature city features (Some (featurename, lat, lng))
      else bestfeature city features best
  end.

(** [getplacelatlong], [fetched] being what opening the URL, reading and
    [xml.etree.ElementTree.fromstring] give: the tree or an exception.
    The result is [(msg, bestfeaturename, lat, lng)]. *)
Definition getplacelatlong (CODE_STATE : gmap string string)
    (city state : string) (fetched : exn + element)
  : exn + option string * option string * option string * option string :=
  let state := default state (CODE_STATE !! state) in
  let tried :=
    tree ← fetched;
    best ← bestfeature city (iter tree "USGS") None;
    match best with
    | None => inl (RuntimeError "City not found")
    | Some (bestfeaturename, lat, lng) =>
        inr (None, Some bestfeaturename, Some lat, Some lng)
    end in
  match tried with
  | inr found => inr found
  | inl e =>
      match caught e with
      | Some message =>
          inr (Some ("Unable to get location of " +:+ city +:+ ", " +:+
                     state +:+ ": " +:+ message), None, None, None)
      | None => inl e
      end
  end.

(** *** More rules *)

(** What a feature gives when it has its three items. *)
Definition feature_triple (feature : element)
  : option (string * string * string) :=
  match gettextitem feature "FEATURE_NAME",
        gettextitem feature "FEAT_LATITUDE_NMBR",
        gettextitem feature "FEAT_LONGITUDE_NMBR" with
  | inr featurename, inr lat, inr lng => Some (featurename, lat, lng)
  | _, _, _ => None
  end.

(** A feature whose name is the name of the city, capitals and small
    letters being the same. *)
Definition named (city : string) (feature : element) : Prop :=
  ∃ featurename,
    gettextitem feature "FEATURE_NAME" = inr featurename ∧
    upper city = upper featurename.

#[global] Instance named_dec city feature : Decision (named city feature).
Proof.
  unfold named. destruct (gettextitem feature "FEATURE_NAME") as [e|name].
  - right. by intros (? & [=] & _).
  - destruct (decide (upper city = upper name)) as [H|H].
    + left. by exists name.
    + right. intros (? & [= <-] & ?). done.
Defined.

(** *** A clock and a report for the examples *)

(** A feature of a reply of the USGS. *)
Definition san_francisco : element :=
  Element "USGS" ∅ None
    [Element "FEATURE_ID" ∅ (Some "277593") [];
     Element "FEATURE_NAME" ∅ (Some " San Francisco ") [];
     Element "FEAT_LATITUDE_NMBR" ∅ (Some "37.7749") [];
     Element "FEAT_LONGITUDE_NMBR" ∅ (Some "-122.4194") []].

(** A clock that reads the six numbers of a timestamp and does no
    calendar arithmetic: the minutes to take off are kept beside them. *)
Definition sample_datetime : Type := list Z * Z * bool.

Definition sample_strptime (s : string) : option sample_datetime :=
  if bool_decide (String.length s = 19%nat ∧
                  substring 4 1 s = "-" ∧ substring 7 1 s = "-" ∧
                  substring 10 1 s = "T" ∧
                  substring 13 1 s = ":" ∧ substring 16 1 s = ":")
  then
    numbers ← mapM (λ '(i, n),
                  digits_value (list_ascii_of_string (substring i n s)) 0)
                 [(0, 4); (5, 2); (8, 2); (11, 2); (14, 2); (17, 2)]%nat;
    Some (numbers, 0, false)
  else None.

Definition sample_minus_minutes (dt : sample_datetime) (offset : Z)
  : option sample_datetime :=
  let '(numbers, minutes, aware) := dt in Some (numbers, minutes + offset, aware).

Definition sample_replace_tzinfo (dt : sample_datetime) : sample_datetime :=
  let '(numbers, minutes, _) := dt in (numbers, minutes, true).

(** A report with a creation time in Zulu notation. *)
Definition zulu_report : element :=
  Element "dwml" ∅ None
    [Element "head" ∅ None
       [Element "product" ∅ None
          [Element "creation-date" ∅ (Some "2015-06-01T12:00:00Z") []]]].

(** A report without a creation time. *)
Definition undated_report : element :=
  Element "dwml" ∅ None
    [Element "head" ∅ None [Element "product" ∅ None []]].

(** A report with one time layout of two periods and the forecast for
    them. *)
Definition forecast_report : element :=
  Element "dwml" ∅ None
    [Element "head" ∅ None
       [Element "product" ∅ None
          [Element "creation-date" ∅ (Some "2015-06-01T12:00:00-07:00") []]];
     Element "data" {[ "type" := "forecast" ]} None
       [Element "location" ∅ None
          [Element "point"
             {[ "latitude" := "37.77"; "longitude" := "-122.42" ]} None [];
           Element "city" {[ "state" := "CA" ]} (Some "San Francisco") []];
        Element "time-layout" ∅ None
          [Element "layout-key" ∅ (Some " k-p12h-n2-1 ") [];
           Element "start-valid-time" {[ "period-name" := "Today" ]}
             (Some "2015-06-01T06:00:00-07:00") [];
           Element "start-valid-time" {[ "period-name" := "Tonight" ]}
             (Some "2015-06-01T18:00:00-07:00") []];
        Element "parameters" ∅ None
          [Element "wordedForecast" {[ "time-layout" := "k-p12h-n2-1" ]} None
             [Element "name" ∅ (Some "Text Forecast") [];
              Element "text" ∅ (Some "Sunny.") [];
              Element "text" ∅ (Some "Clear.") []]]]].

(** The time layout of that report, as the sample clock reads it, and the
    object after its forecasts were parsed. *)
Definition forecast_timelayouts
  : gmap string (list (sample_datetime * option string)) :=
  {[ "k-p12h-n2-1" :=
       [ (([2015; 6; 1; 6; 0; 0], -420, true), Some "Today");
         (([2015; 6; 1; 18; 0; 0], -420, true), Some "Tonight") ] ]}.

Definition forecast_periods : nwsxml sample_datetime :=
  set_perioditems sample_datetime init
    [ Nwsperiod sample_datetime
        (([2015; 6; 1; 6; 0; 0], -420, true), Some "Today") "Sunny.";
      Nwsperiod sample_datetime
        (([2015; 6; 1; 18; 0; 0], -420, true), Some "Tonight") "Clear." ].

End NWS.

(** * Properties *)

(** ** The dummy Teletype *)

Section TeletypeProps.

Import Teletype.

Variables FIGS LTRS CR : Z.
Variable chToBaudot : ascii → option Z * option Z.
Variable chToASCII : Z → option Z → option ascii.

Abbreviation write_byte := (write_byte FIGS LTRS chToASCII).
Abbreviation write := (write FIGS LTRS chToASCII).
Abbreviation key_code := (key_code chToBaudot).
Abbreviation read_char := (read_char chToBaudot).
Abbreviation read_loop := (read_loop chToBaudot).
Abbreviation read := (read CR chToBaudot).
Abbreviation final_shift := (final_shift FIGS LTRS).
Abbreviation key_of := (key_of chToBaudot).
Abbreviation is_shift := (is_shift FIGS LTRS).
Abbreviation plain_key := (plain_key FIGS LTRS).
Abbreviation representable := (representable chToBaudot).
Abbreviation printable := (printable FIGS LTRS chToBaudot chToASCII).
Abbreviation line_end_ok := (line_end_ok FIGS LTRS CR chToASCII).

Lemma flushOutput_shifts st :
  inshift (flushOutput st) = inshift st ∧ outshift (flushOutput st) = outshift st.
Proof. unfold flushOutput. by destruct (_ <? _)%nat. Qed.

Lemma write_byte_outshift st bb :
  outshift (write_byte st bb) =
  if decide (bb = FIGS ∨ bb = LTRS) then Some bb else outshift st.
Proof.
  unfold Teletype.write_byte.
  destruct (decide (bb = FIGS)) as [->|nF].
  { rewrite decide_True; [done | by left]. }
  destruct (decide (bb = LTRS)) as [->|nL].
  { rewrite decide_True; [done | by right]. }
  rewrite decide_False by (intros [?|?]; done).
  destruct (chToASCII bb (outshift st)) as [ch|]; [|done].
  destruct (decide (ch = chr 10 ∨ ch = chr 13)); [|done].
  apply flushOutput_shifts.
Qed.

Lemma write_loop_outshift s : ∀ st,
  outshift (foldl write_byte st s) = final_shift (outshift st) s.
Proof.
  induction s as [|bb s IH]; intros st; [done|].
  cbn [foldl]. rewrite IH, write_byte_outshift. done.
Qed.

(** C10.  When [write] returns, the input shift state equals the output
    shift state, and both are the last shift code-point of the stream
    written (or the output shift before the call when the stream has
    none): the input shift state before the call plays no part. *)
Theorem write_syncs_shifts (st : tty) (s : list Z) :
  inshift (write st s) = outshift (write st s) ∧
  inshift (write st s) = final_shift (outshift st) s.
Proof.
  unfold Teletype.write. cbn. split; [done|]. apply write_loop_outshift.
Qed.

(** *** The line end that [read] appends *)

Lemma append_Ret bs b st out st' :
  append bs b st = Ret out st' → out = bs ++ [b] ∧ st' = st.
Proof. unfold append. destruct (is_byte b); naive_solver. Qed.

(** C9.  The sequence a [read] returns is the sequence assembled from the
    keys followed by a suffix, and the suffix is one CR code-point if and
    only if the assembled sequence is not exactly one code-point long; it
    is empty otherwise. *)
Theorem read_line_end_iff (st : tty) (intext : string) (out : list Z) (st' : tty) :
  read st intext = Ret out st' →
  ∃ assembled suffix,
    read_loop (flushOutput st) [] (encode_ascii_replace intext) = Ret assembled st' ∧
    out = assembled ++ suffix ∧
    (suffix = [CR] ↔ length assembled ≠ 1%nat) ∧
    (suffix = [] ↔ length assembled = 1%nat).
Proof.
  unfold Teletype.read.
  destruct (Teletype.read_loop _ _ _ _) as [assembled st1| |]; [|done..].
  destruct (decide (length assembled ≠ 1%nat)) as [Hn|Hn]; intros H.
  - apply append_Ret in H as [-> ->].
    exists assembled, [CR]. split_and!; [done..| |]; naive_solver.
  - injection H as <- <-. apply dec_stable in Hn.
    exists assembled, []. rewrite app_nil_r. split_and!; [done..| |]; naive_solver.
Qed.

(** *** The delete and backspace keys *)

(** C8.  A backspace or delete key contributes the single code-point
    [BLANKKEY] and no shift code-point, at any place of the input; typed
    alone it is all that [read] returns.  [BLANKKEY] is 0x00: none of its
    bits is set, and it is not the code-point with the five bits set. *)
Theorem backspace_sends_blankkey (st : tty) (baudotread : list Z) :
  read_char st baudotread (chr 8) = Ret (baudotread ++ [BLANKKEY]) st ∧
  read_char st baudotread (chr 0x7f) = Ret (baudotread ++ [BLANKKEY]) st ∧
  read st (String (chr 8) "") = Ret [BLANKKEY] (flushOutput st) ∧
  read st (String (chr 0x7f) "") = Ret [BLANKKEY] (flushOutput st) ∧
  BLANKKEY = 0 ∧ (∀ i, Z.testbit BLANKKEY i = false) ∧ BLANKKEY ≠ Z.ones 5.
Proof.
  split_and!; try reflexivity; try done.
  intros i. apply Z.bits_0.
Qed.

(** *** Shift code-points on the input side *)

Lemma key_code_state st c :
  key_code st c = (key_of c, (key_code st c).2) ∧
  inshift (key_code st c).2 = inshift st.
Proof.
  unfold key_of, Teletype.key_code.
  destruct (decide (c = chr ESC)); [done|].
  destruct (decide (c = chr 8 ∨ c = chr 127)); done.
Qed.

Lemma read_char_emits st acc c acc' st' :
  read_char st acc c = Ret acc' st' →
  acc' = acc ++ shift_keyed (inshift st) [key_of (keyed c)] ∧
  inshift st' = shift_after (inshift st) [key_of (keyed c)].
Proof.
  unfold Teletype.read_char. destruct (decide (c = chr CTLC)); [done|].
  fold (keyed c).
  destruct (key_code_state st (keyed c)) as [-> Hin].
  destruct (key_of (keyed c)) as [bb shift].
  set (st1 := (key_code st (keyed c)).2) in *. clearbody st1.
  cbn [shift_keyed shift_after foldl snd]. rewrite <- Hin. cbn [snd].
  unfold append.
  destruct shift as [sh|], bb as [b|]; cbn [option_list];
    repeat case_decide; try (exfalso; naive_solver);
    repeat (destruct (is_byte _)); intros ?; simplify_eq; cbn;
    by rewrite ?app_nil_r, <- ?app_assoc.
Qed.

Lemma shift_keyed_app cur ks1 ks2 :
  shift_keyed cur (ks1 ++ ks2) =
  shift_keyed cur ks1 ++ shift_keyed (shift_after cur ks1) ks2.
Proof.
  revert cur. induction ks1 as [|[bb shift] ks1 IH]; intros cur; [done|].
  cbn [app shift_keyed shift_after foldl snd].
  destruct (decide (is_Some shift ∧ shift ≠ cur));
    rewrite IH; by rewrite <- ?app_assoc.
Qed.

Lemma read_loop_emits keys : ∀ st acc acc' st',
  read_loop st acc keys = Ret acc' st' →
  acc' = acc ++ shift_keyed (inshift st) (key_of <$> (keyed <$> keys)) ∧
  inshift st' = shift_after (inshift st) (key_of <$> (keyed <$> keys)).
Proof.
  induction keys as [|c keys IH]; intros st acc acc' st'.
  - intros [= <- <-]. by rewrite app_nil_r.
  - cbn [Teletype.read_loop].
    destruct (read_char st acc c) as [acc1 st1| |] eqn:Hc; [|done..].
    intros H. apply IH in H as [-> ->].
    apply read_char_emits in Hc as [-> ->].
    change (key_of <$> (keyed <$> c :: keys))
      with ([key_of (keyed c)] ++ (key_of <$> (keyed <$> keys))).
    rewrite shift_keyed_app, <- app_assoc. split; [done|].
    unfold shift_after. by rewrite foldl_app.
Qed.

Lemma count_shift_keyed keys : ∀ cur,
  Forall plain_key keys →
  length (filter is_shift (shift_keyed cur keys)) =
  changes (cur :: filter is_Some (snd <$> keys)).
Proof.
  induction keys as [|[bb shift] keys IH]; intros cur Hk; [done|].
  apply Forall_cons in Hk as [[Hb Hs] Hk]. cbn [fst snd] in Hb, Hs.
  assert (Hbb : filter is_shift (option_list bb) = []).
  { destruct bb as [b|]; [|done]. change (option_list (Some b)) with [b].
    rewrite filter_cons_False by (by apply Hb). done. }
  cbn [shift_keyed fmap list_fmap snd].
  destruct shift as [s|].
  - rewrite (filter_cons_True is_Some) by by eexists.
    change (option_list (Some s)) with [s].
    destruct (decide (is_Some (Some s) ∧ Some s ≠ cur)) as [[_ ne]|e].
    + rewrite !filter_app, Hbb.
      rewrite (filter_cons_True is_shift) by by apply Hs.
      rewrite filter_nil. cbn [app length]. rewrite IH by done.
      cbn [changes]. rewrite (decide_False (P := cur = Some s)) by done. done.
    + assert (cur = Some s) as ->.
      { destruct (decide (cur = Some s)); [done|]. exfalso. apply e. split; [by eexists|done]. }
      rewrite filter_app, Hbb. cbn [app]. rewrite IH by done.
      cbn [changes]. rewrite (decide_True (P := Some s = Some s)) by done. done.
  - rewrite decide_False by (intros [[? [=]] _]).
    rewrite (filter_cons_False is_Some) by (intros [? [=]]).
    rewrite filter_app, Hbb. by apply IH.
Qed.

(** C2.  The sequence a [read] returns is the stream of the shift rule
    ([shift_keyed]: a shift code-point immediately before a key's
    code-point if and only if the key's shift is defined and differs from
    the current input shift state) followed by the line-end suffix; and
    when no key's own code-point is a shift code-point, the number of shift
    code-points returned is the number of case changes along the keys,
    starting from the input shift state at the call. *)
Theorem shift_emitted_iff (st : tty) (intext : string) (out : list Z) (st' : tty) :
  read st intext = Ret out st' →
  let keys := key_of <$> (keyed <$> encode_ascii_replace intext) in
  ∃ suffix,
    out = shift_keyed (inshift st) keys ++ suffix ∧
    (suffix = [] ∨ suffix = [CR]) ∧
    inshift st' = shift_after (inshift st) keys ∧
    (Forall plain_key keys → ¬ is_shift CR →
     length (filter is_shift out) =
     changes (inshift st :: filter is_Some (snd <$> keys))).
Proof.
  intros H keys.
  apply read_line_end_iff in H as (assembled & suffix & Hl & -> & HCR & Hnil).
  apply read_loop_emits in Hl as [-> Hin]. cbn [app] in *.
  destruct (flushOutput_shifts st) as [Hfl _]. rewrite Hfl in *.
  exists suffix. split_and!; [done| |done|].
  - destruct (decide (length (shift_keyed (inshift st) keys) = 1%nat)); naive_solver.
  - intros Hk HnCR. rewrite filter_app, length_app, count_shift_keyed by done.
    assert (filter is_shift suffix = []) as ->; [|by rewrite Nat.add_0_r].
    destruct (decide (length (shift_keyed (inshift st) keys) = 1%nat)) as [e|ne].
    + by apply Hnil in e as ->.
    + apply HCR in ne as ->. by rewrite filter_cons_False.
Qed.

(** *** Round trip through [read] and [write] *)

Lemma set_inshift_same st : set_inshift st (inshift st) = st.
Proof. by destruct st. Qed.

Lemma printable_key st c :
  printable c →
  c ≠ chr CTLC ∧ keyed c = c ∧ key_code st c = (chToBaudot c, st).
Proof.
  intros (_ & Hn & _). rewrite !not_elem_of_cons in Hn.
  destruct Hn as (? & ? & ? & ? & ? & ? & _).
  unfold keyed, Teletype.key_code.
  rewrite !decide_False by naive_solver. done.
Qed.

Lemma printable_key_of c : printable c → key_of (keyed c) = chToBaudot c.
Proof.
  intros H. destruct (printable_key init c H) as (_ & -> & Hk).
  unfold key_of. by rewrite Hk.
Qed.

Lemma encode_printable cs :
  Forall printable cs →
  (λ c, if 128 <=? ord c then chr 63 else c) <$> cs = cs.
Proof.
  induction 1 as [|c cs [Hc _] _ IH]; [done|]. cbn [fmap list_fmap].
  fold (fmap (M := list) (λ c, if 128 <=? ord c then chr 63 else c) cs).
  rewrite IH. destruct (Z.leb_spec 128 (ord c)); [lia|done].
Qed.

(** [read] on printable keys: every append succeeds, nothing is logged and
    only the input shift changes. *)
Lemma read_loop_printable cs : ∀ st acc,
  Forall printable cs →
  read_loop st acc cs =
  Ret (acc ++ shift_keyed (inshift st) (chToBaudot <$> cs))
      (set_inshift st (shift_after (inshift st) (chToBaudot <$> cs))).
Proof.
  induction cs as [|c cs IH]; intros st acc Hp.
  - cbn. by rewrite app_nil_r, set_inshift_same.
  - apply Forall_cons in Hp as [Hc Hp].
    destruct (printable_key st c Hc) as (Hctl & Hk & Hcode).
    destruct Hc as (_ & _ & b & Hb & Hbyte & _ & Hs).
    cbn [Teletype.read_loop]. unfold Teletype.read_char.
    rewrite decide_False by done. fold (keyed c). rewrite Hk, Hcode.
    cbn [fmap list_fmap shift_keyed shift_after foldl].
    destruct (chToBaudot c) as [bb shift]. cbn [fst snd] in *. subst bb.
    change (option_list (Some b)) with [b]. unfold append.
    destruct shift as [s|].
    + destruct Hs as (_ & Hsb & _).
      change (option_list (Some s)) with [s].
      destruct (decide (Some s = inshift st)) as [e|ne].
      * rewrite !(decide_False (P := _ ∧ _)) by naive_solver.
        rewrite Hbyte, IH by done. by rewrite <- app_assoc.
      * rewrite !(decide_True (P := _ ∧ _)) by (split; [by eexists|done]).
        rewrite Hsb, Hbyte, IH by done. by rewrite <- !app_assoc.
    + rewrite !(decide_False (P := _ ∧ _)) by (intros [[? [=]] _]).
      rewrite Hbyte, IH by done. by rewrite <- app_assoc.
Qed.

Lemma append_snoc (s : string) c rest :
  (s +:+ String c "") +:+ rest = s +:+ String c rest.
Proof.
  induction s as [|a s IH]; [done|].
  change (String a ((s +:+ String c "") +:+ rest) = String a (s +:+ String c rest)).
  by rewrite IH.
Qed.

Lemma append_empty_r (s : string) : s +:+ "" = s.
Proof.
  induction s as [|a s IH]; [done|].
  change (String a (s +:+ "") = String a s). by rewrite IH.
Qed.

Lemma write_byte_shift st s :
  is_shift s → write_byte st s = set_outshift st (Some s).
Proof.
  intros Hs. unfold Teletype.write_byte.
  destruct (decide (s = FIGS)); [done|].
  destruct (decide (s = LTRS)); [done|]. destruct Hs; done.
Qed.

Lemma write_byte_char st b c :
  ¬ is_shift b → chToASCII b (outshift st) = Some c →
  c ≠ chr 10 → c ≠ chr 13 →
  write_byte st b = set_outline st (outline st +:+ String c "").
Proof.
  intros Hb Hc ? ?. unfold Teletype.write_byte.
  rewrite !decide_False, Hc by (unfold is_shift in Hb; naive_solver).
  by rewrite decide_False by naive_solver.
Qed.

(** [write] on the stream of printable keys: the characters are added to
    the line, and only the output shift changes besides. *)
Lemma write_loop_printable cs : ∀ st cur,
  outshift st = cur →
  Forall printable cs →
  foldl write_byte st (shift_keyed cur (chToBaudot <$> cs)) =
  set_outline
    (set_outshift st (shift_after cur (chToBaudot <$> cs)))
    (outline st +:+ string_of_list_ascii cs).
Proof.
  induction cs as [|c cs IH]; intros st cur Hcur Hp.
  - subst cur. destruct st as [i o l f g]. cbn. by rewrite append_empty_r.
  - apply Forall_cons in Hp as [Hc Hp].
    destruct Hc as (_ & Hn & b & Hb & _ & Hnb & Hs).
    rewrite !not_elem_of_cons in Hn. destruct Hn as (_ & ? & ? & _).
    cbn [fmap list_fmap shift_keyed shift_after foldl string_of_list_ascii].
    destruct (chToBaudot c) as [bb shift]. cbn [fst snd] in *. subst bb.
    change (option_list (Some b)) with [b].
    destruct shift as [s|].
    + destruct Hs as (Hss & _ & Hdec).
      change (option_list (Some s)) with [s].
      destruct (decide (Some s = cur)) as [e|ne].
      * rewrite !(decide_False (P := _ ∧ _)) by naive_solver.
        cbn [app foldl].
        rewrite (write_byte_char _ b c) by (by rewrite ?Hcur, <- ?e).
        rewrite (IH _ cur) by done.
        unfold set_outline, set_outshift. cbn. by rewrite append_snoc.
      * rewrite !(decide_True (P := _ ∧ _)) by (split; [by eexists|done]).
        cbn [app foldl].
        rewrite (write_byte_shift st s Hss).
        rewrite (write_byte_char _ b c) by done.
        rewrite (IH _ (Some s)) by done.
        unfold set_outline, set_outshift. cbn. by rewrite append_snoc.
    + rewrite !(decide_False (P := _ ∧ _)) by (intros [[? [=]] _]).
      cbn [app foldl].
      rewrite (write_byte_char _ b c) by done.
      rewrite (IH _ cur) by done.
      unfold set_outline, set_outshift. cbn. by rewrite append_snoc.
Qed.

Lemma flushOutput_outline st : outline (flushOutput st) = "".
Proof.
  unfold flushOutput. destruct (outline st) as [|a s] eqn:Ho; cbn; [|done].
  by rewrite Ho.
Qed.

Lemma write_byte_CR st : line_end_ok → write_byte st CR = flushOutput st.
Proof.
  intros (_ & Hn & Hd). unfold Teletype.write_byte.
  rewrite !decide_False by (unfold is_shift in Hn; naive_solver).
  destruct (Hd (outshift st)) as [-> | ->]; by rewrite decide_True by naive_solver.
Qed.

Lemma write_fields st s :
  outline (write st s) = outline (foldl write_byte st s) ∧
  logged (write st s) = logged (foldl write_byte st s).
Proof. done. Qed.

(** C1 (as amended).  From a state in which the two shift states agree,
    reading a text of printable characters and writing the code-points
    read puts exactly that text on the output line.  When the stream of
    the text is one code-point, [read] returns it as it is and the text
    waits in the line buffer, nothing being logged.  Otherwise [read]
    appends a CR, the line buffer is empty after [write], and the text
    was logged as one line, unless it is the empty text, for which the
    stream is the CR alone and nothing is logged. *)
Theorem roundtrip_printable (st : tty) (text : string) :
  inshift st = outshift st →
  Forall printable (list_ascii_of_string text) →
  line_end_ok →
  let keys :=
    shift_keyed (inshift st) (chToBaudot <$> list_ascii_of_string text) in
  let bs := if decide (length keys = 1%nat) then keys else keys ++ [CR] in
  ∃ st1,
    read st text = Ret bs st1 ∧
    logged st1 = logged (flushOutput st) ∧
    on_output_line text st1 (write st1 bs) ∧
    if decide (length keys = 1%nat)
    then outline (write st1 bs) = text ∧
         logged (write st1 bs) = logged st1
    else outline (write st1 bs) = "" ∧
         logged (write st1 bs)
         = logged st1 ++ (if decide (text = "") then [] else [Info text]).
Proof.
  intros Hsync Hp Hle keys bs.
  pose proof Hle as (HCR & _ & _).
  destruct (flushOutput_shifts st) as [Hi Ho].
  pose proof (flushOutput_outline st) as Hl.
  unfold Teletype.read, encode_ascii_replace.
  rewrite (encode_printable _ Hp), (read_loop_printable _ _ _ Hp).
  set (cs := list_ascii_of_string text) in *.
  set (st0 := flushOutput st) in *.
  assert (keys = shift_keyed (inshift st0) (chToBaudot <$> cs)) as Hkeys
    by (subst keys; by rewrite Hi).
  set (st1 := set_inshift st0 (shift_after (inshift st0) (chToBaudot <$> cs))).
  cbn [app]. rewrite <- Hkeys.
  assert (Hw : foldl write_byte st1 keys =
               set_outline
                 (set_outshift st1
                    (shift_after (inshift st0) (chToBaudot <$> cs))) text).
  { rewrite Hkeys.
    rewrite (write_loop_printable cs st1 (inshift st0))
      by (done || (cbn; congruence)).
    f_equal. cbn. rewrite Hl. subst cs. apply string_of_list_ascii_of_string. }
  subst bs. destruct (decide (length keys = 1%nat)) as [Hlen|Hlen].
  - rewrite decide_False by lia. exists st1.
    split; [done|]. split; [done|].
    unfold on_output_line.
    rewrite !(proj1 (write_fields _ _)), !(proj2 (write_fields _ _)), Hw.
    split; [by left|done].
  - rewrite decide_True by done.
    unfold append. rewrite HCR. exists st1.
    split; [done|]. split; [done|].
    unfold on_output_line.
    rewrite !(proj1 (write_fields _ _)), !(proj2 (write_fields _ _)).
    rewrite foldl_app, Hw. cbn [foldl]. rewrite write_byte_CR by done.
    unfold flushOutput. cbn.
    destruct text as [|a text]; cbn; [|by split; [right|]].
    rewrite app_nil_r. by split; [left|].
Qed.

End TeletypeProps.

(** *** The Teletype properties at the US-TTY codec *)

Section TeletypeUSTTY.

Import Teletype.

Lemma USTTY_no_shift (b : Z) :
  b ≠ USTTY.LTRS → b ≠ USTTY.FIGS → ¬ is_shift USTTY.FIGS USTTY.LTRS b.
Proof. intros ? ? [?|?]; done. Qed.

Lemma USTTY_line_end_ok :
  line_end_ok USTTY.FIGS USTTY.LTRS USTTY.CR USTTY.chToASCII.
Proof.
  split_and!; [done | by apply USTTY_no_shift |].
  intros o. left. unfold USTTY.chToASCII. cbn. by case_decide.
Qed.

(** A character of the letters case or of the figures case only. *)
Lemma USTTY_printable_shifted (c : ascii) (b s : Z) :
  ord c < 128 →
  c ∉ [chr CTLC; chr 10; chr 13; chr ESC; chr 8; chr 0x7f] →
  USTTY.chToBaudot c = (Some b, Some s) →
  is_byte b = true → b ≠ USTTY.LTRS → b ≠ USTTY.FIGS →
  s = USTTY.LTRS ∨ s = USTTY.FIGS →
  USTTY.chToASCII b (Some s) = Some c →
  printable USTTY.FIGS USTTY.LTRS USTTY.chToBaudot USTTY.chToASCII c.
Proof.
  intros ? ? Hc ? ? ? Hs ?. split_and!; [done..|].
  exists b. rewrite Hc. cbn [fst snd]. split_and!; try done.
  - by apply USTTY_no_shift.
  - by destruct Hs as [-> | ->].
Qed.

(** The space, which both cases have. *)
Lemma USTTY_printable_space :
  printable USTTY.FIGS USTTY.LTRS USTTY.chToBaudot USTTY.chToASCII " ".
Proof.
  split_and!; [done| |].
  - rewrite !not_elem_of_cons. split_and!; try done. apply not_elem_of_nil.
  - exists 4. split_and!; [done..|by apply USTTY_no_shift|].
    intros o. unfold USTTY.chToASCII. cbn. by case_decide.
Qed.

Lemma USTTY_printable_text :
  Forall (printable USTTY.FIGS USTTY.LTRS USTTY.chToBaudot USTTY.chToASCII)
    (list_ascii_of_string "AB 12").
Proof.
  repeat first
    [ apply Forall_nil_2
    | apply Forall_cons_2;
      [ first [ exact USTTY_printable_space
              | eapply USTTY_printable_shifted;
                [ done
                | rewrite !not_elem_of_cons; split_and!; try done; apply not_elem_of_nil
                | reflexivity | done | done | done
                | first [by left | by right] | reflexivity ] ] | ] ].
Qed.

(** [write_syncs_shifts] needs no hypothesis; this is what a [write] does to
    a later [read]: after FIGS was written a figure is read without a shift
    code-point, while the fresh Teletype reads it with one. *)
Example write_changes_later_reads :
  (USTTY.read init "1" = Ret [27; 23; 8] (set_inshift init (Some 27))) ∧
  (∃ st', USTTY.read (USTTY.write init [USTTY.FIGS]) "1" = Ret [23] st').
Proof. split; [reflexivity|]. eexists. reflexivity. Qed.

(** Witness of [read_line_end_iff]: the key A typed on a fresh Teletype. *)
Lemma read_line_end_iff_witness :
  USTTY.read init "A" = Ret [31; 3; 8] (set_inshift init (Some 31)) ∧
  ∃ assembled suffix,
    read_loop USTTY.chToBaudot (flushOutput init) [] (encode_ascii_replace "A")
      = Ret assembled (set_inshift init (Some 31)) ∧
    [31; 3; 8] = assembled ++ suffix ∧
    (suffix = [USTTY.CR] ↔ length assembled ≠ 1%nat) ∧
    (suffix = [] ↔ length assembled = 1%nat).
Proof.
  split; [reflexivity|].
  apply (read_line_end_iff USTTY.CR USTTY.chToBaudot USTTY.chToASCII).
  reflexivity.
Defined.

(** Witness of [shift_emitted_iff]: the four keys AB12 typed on a fresh
    Teletype give two shift code-points, one for each change of case. *)
Lemma shift_emitted_iff_witness :
  USTTY.read init "AB12" = Ret [31; 3; 25; 27; 23; 19; 8] (set_inshift init (Some 27)) ∧
  length (filter (is_shift USTTY.FIGS USTTY.LTRS) [31; 3; 25; 27; 23; 19; 8]) = 2%nat.
Proof.
  split; [reflexivity|].
  destruct (shift_emitted_iff USTTY.FIGS USTTY.LTRS USTTY.CR USTTY.chToBaudot
              USTTY.chToASCII init "AB12" [31; 3; 25; 27; 23; 19; 8]
              (set_inshift init (Some 27)) eq_refl)
    as (suffix & _ & _ & _ & Hcount).
  rewrite Hcount; [reflexivity| |by apply USTTY_no_shift].
  repeat first
    [ apply Forall_nil_2
    | apply Forall_cons_2;
      [ split; cbn [fst snd]; intros x [= <-];
        [ by apply USTTY_no_shift | first [by left | by right] ] | ] ].
Defined.

(** Witness of [roundtrip_printable]: a text of letters, a space and
    figures, typed on a fresh Teletype. *)
Lemma roundtrip_printable_witness :
  inshift init = outshift init ∧
  Forall (printable USTTY.FIGS USTTY.LTRS USTTY.chToBaudot USTTY.chToASCII)
    (list_ascii_of_string "AB 12") ∧
  line_end_ok USTTY.FIGS USTTY.LTRS USTTY.CR USTTY.chToASCII ∧
  let keys :=
    shift_keyed (inshift init)
      (USTTY.chToBaudot <$> list_ascii_of_string "AB 12") in
  let bs := if decide (length keys = 1%nat) then keys else keys ++ [USTTY.CR] in
  ∃ st1,
    USTTY.read init "AB 12" = Ret bs st1 ∧
    logged st1 = logged (flushOutput init) ∧
    on_output_line "AB 12" st1 (USTTY.write st1 bs) ∧
    if decide (length keys = 1%nat)
    then outline (USTTY.write st1 bs) = "AB 12" ∧
         logged (USTTY.write st1 bs) = logged st1
    else outline (USTTY.write st1 bs) = "" ∧
         logged (USTTY.write st1 bs)
         = logged st1 ++ (if decide ("AB 12" = "") then [] else [Info "AB 12"]).
Proof.
  split_and!; [done | exact USTTY_printable_text | exact USTTY_line_end_ok |].
  apply (roundtrip_printable USTTY.FIGS USTTY.LTRS USTTY.CR
           USTTY.chToBaudot USTTY.chToASCII init "AB 12");
    [done | exact USTTY_printable_text | exact USTTY_line_end_ok].
Defined.

(** The three cases of the round trip on a fresh Teletype: a text of
    several keys is logged as one line; the space, which is in both cases,
    is one code-point and waits in the line buffer; the empty text is
    read as the CR alone, and nothing is logged. *)
Example roundtrip_cases :
  (∃ st1, USTTY.read init "AB 12" = Ret [31; 3; 25; 4; 27; 23; 19; 8] st1 ∧
     outline (USTTY.write st1 [31; 3; 25; 4; 27; 23; 19; 8]) = "" ∧
     logged (USTTY.write st1 [31; 3; 25; 4; 27; 23; 19; 8]) = [Info "AB 12"]) ∧
  (∃ st1, USTTY.read init " " = Ret [4] st1 ∧
     outline (USTTY.write st1 [4]) = " " ∧
     logged (USTTY.write st1 [4]) = []) ∧
  (∃ st1, USTTY.read init "" = Ret [USTTY.CR] st1 ∧
     outline (USTTY.write st1 [USTTY.CR]) = "" ∧
     logged (USTTY.write st1 [USTTY.CR]) = []).
Proof. split_and!; eexists; by split_and!. Qed.

(** C1 as stated fails.  The carriage return is a character of the code,
    yet read alone and written back it ends the line instead of appearing
    on it; and the figure 2, read on a Teletype whose shift states differ,
    comes back as the letter W. *)
Lemma roundtrip_counterexample :
  (representable USTTY.chToBaudot (chr 13) ∧
   ∃ st1, USTTY.read init (String (chr 13) "") = Ret [USTTY.CR] st1 ∧
     outline (USTTY.write st1 [USTTY.CR]) = "" ∧
     logged (USTTY.write st1 [USTTY.CR]) = [] ∧
     ¬ on_output_line (String (chr 13) "") st1 (USTTY.write st1 [USTTY.CR])) ∧
  (USTTY.read (USTTY.write init [USTTY.LTRS]) "1" = Ret [27; 23; 8] desync ∧
   representable USTTY.chToBaudot "2" ∧
   ∃ st1, USTTY.read desync "2" = Ret [19] st1 ∧
     outline (USTTY.write st1 [19]) = "W" ∧
     ¬ on_output_line "2" st1 (USTTY.write st1 [19])).
Proof.
  split.
  - split; [by eexists|]. eexists. split; [reflexivity|].
    split_and!; [reflexivity..|].
    intros [[H _]|[_ H]]; vm_compute in H; discriminate.
  - split; [reflexivity|]. split; [by eexists|].
    eexists. split; [reflexivity|]. split; [reflexivity|].
    intros [[H _]|[H _]]; vm_compute in H; discriminate.
Qed.

End TeletypeUSTTY.

(** ** The SMS feed *)

Section TwilioProps.

Import Twilio.

Variable py_int : string → option Z.
Variable clk : clock.
Variable srv : server.

Abbreviation processmsg := (processmsg clk).
Abbreviation handlemsg := (handlemsg clk).
Abbreviation handlereply_try := (handlereply_try py_int clk).
Abbreviation handlereply := (handlereply py_int clk).
Abbreviation fetch_loop := (fetch_loop py_int clk).
Abbreviation fetchitems_try := (fetchitems_try py_int clk).
Abbreviation fetchitems := (fetchitems py_int clk).

(** *** What a step leaves alone *)

Lemma handlemsg_frame st fields r :
  handlemsg st fields = r →
  lastserial (state_of r) = lastserial st ∧ sent (state_of r) = sent st ∧
  donequeue (state_of r) = donequeue st.
Proof.
  intros <-. unfold Twilio.handlemsg, Twilio.processmsg.
  repeat case_match; done.
Qed.

Lemma handlereply_try_frame msgs : ∀ n st n' e st',
  handlereply_try msgs n st = (n', e, st') →
  lastserial st' = lastserial st ∧ sent st' = sent st ∧
  donequeue st' = donequeue st.
Proof.
  induction msgs as [|m msgs IH]; intros n st n' e st'; cbn.
  - by intros [= _ _ <-].
  - repeat case_match; try by intros [= _ _ <-].
    + intros H'. apply IH in H' as (-> & -> & ->).
      by eapply (handlemsg_frame _ _ (Ok _ _)).
    + intros [= _ _ <-]. by eapply (handlemsg_frame _ _ (Fail _ _)).
Qed.

Lemma handlereply_frame st r res :
  handlereply st r = res →
  lastserial (state_of res) = lastserial st ∧ sent (state_of res) = sent st ∧
  donequeue (state_of res) = donequeue st.
Proof.
  intros <-. unfold Twilio.handlereply.
  destruct (handlereply_try r (-1) st) as [[n e] st1] eqn:Ht.
  apply handlereply_try_frame in Ht as (<- & <- & <-).
  destruct e as [e|]; [|done].
  destruct (format_error e); [|done].
  destruct (handlemsg st1 _) eqn:Hm;
    by eapply (handlemsg_frame _ _ _ Hm).
Qed.

Lemma fetcherror_frame st msgtxt message :
  let st' := (fetcherror st msgtxt message).2 in
  lastserial st' = lastserial st ∧ sent st' = sent st ∧
  donequeue st' = donequeue st ∧ inqueue st' = inqueue st.
Proof. done. Qed.

(** *** Acknowledging printed items *)

Lemma ack_requests_cons item serial q :
  item_serial item = Some serial →
  ack_requests (item :: q) = printed_request serial :: ack_requests q.
Proof. unfold ack_requests. cbn. by intros ->. Qed.

Lemma ack_requests_is_ack q : Forall is_ack (ack_requests q).
Proof. unfold ack_requests. apply Forall_fmap, Forall_true. done. Qed.

(** For a serial number that [itemdone] lets through, [doservercmd] puts
    both values in the request. *)
Lemma printed_request_query serial :
  truthy (Some (VStr serial)) = true →
  printed_request serial = printed_query serial.
Proof. unfold printed_request, doservercmd_request. by intros ->. Qed.

Lemma printed_queries_cons item serial q :
  item_serial item = Some serial →
  printed_queries (item :: q) = printed_query serial :: printed_queries q.
Proof. unfold printed_queries. cbn. by intros ->. Qed.

Lemma printed_queries_is_ack q : Forall is_ack (printed_queries q).
Proof. unfold printed_queries. apply Forall_fmap, Forall_true. done. Qed.

Lemma raised_inr r replyxml : raised r = inr replyxml → r = NetReply replyxml.
Proof. destruct r; cbn; congruence. Qed.

(** [itemdone] puts an item in the queue only when it has a serial number,
    so the queue holds nothing else. *)
Lemma itemdone_has_serial st item :
  Forall has_serial (donequeue st) →
  Forall has_serial (donequeue (itemdone st item)).
Proof.
  intros Hq. unfold itemdone.
  destruct (item_serial item) as [serial|] eqn:Hs; [|done].
  destruct (truthy (Some (VStr serial))) eqn:Ht; [|done].
  cbn. apply Forall_app. split; [done|].
  apply Forall_singleton. by exists serial.
Qed.

(** The loop of [markitemsdone] on a queue [q] of items with serial
    numbers: [k] items are acknowledged; then the queue is empty, or the
    request for item [k] raises.  An [IOError] is handled: the item goes
    back to the queue, behind the others.  Any other exception leaves the
    loop, and the item is in the queue no more. *)
Lemma markitemsdone_from_spec q : ∀ st,
  Forall has_serial q →
  ∃ (k : nat) (st' : feed),
    state_of (markitemsdone_from srv q st) = st' ∧
    lastserial st' = lastserial st ∧
    (∀ i item, (i < k)%nat → q !! i = Some item →
       ∃ serial replyxml,
         item_serial item = Some serial ∧
         srv (sent st ++ printed_queries (take i q)) (printed_query serial)
         = NetReply replyxml) ∧
    ((k = length q ∧ markitemsdone_from srv q st = Ok true st' ∧
      sent st' = sent st ++ printed_queries q ∧
      donequeue st' = [] ∧ inqueue st' = inqueue st) ∨
     (∃ item serial e,
        q !! k = Some item ∧ item_serial item = Some serial ∧
        raised (srv (sent st ++ printed_queries (take k q)) (printed_query serial))
        = inl e ∧
        sent st' = sent st ++ printed_queries (take (S k) q) ∧
        match e with
        | IOError message =>
            markitemsdone_from srv q st = Ok false st' ∧
            donequeue st' = drop (S k) q ++ [item] ∧
            inqueue st' = inqueue st ++
              [ErrorItem (Some (fetcherror st
                 "Network error recording message as printed" (Some message)).1)]
        | _ =>
            markitemsdone_from srv q st = Fail e st' ∧
            donequeue st' = drop (S k) q ∧ inqueue st' = inqueue st
        end)).
Proof.
  induction q as [|item q IH]; intros st Hq.
  - exists 0%nat, (set_donequeue st []). cbn.
    split_and!; try done; try (intros; lia). left. by rewrite app_nil_r.
  - apply Forall_cons in Hq as [(serial & Hs & Ht) Hq].
    cbn [markitemsdone_from]. rewrite Hs. unfold doservercmd.
    fold (printed_request serial). rewrite (printed_request_query _ Ht).
    destruct (raised (srv (sent (set_donequeue st q)) (printed_query serial)))
      as [e|replyxml] eqn:Hsrv; cbn in Hsrv.
    + exists 0%nat. eexists. split; [reflexivity|].
      split; [by destruct e|]. split; [intros; lia|].
      right. exists item, serial, e. cbn [take lookup list_lookup drop].
      unfold printed_queries at 1. cbn [omap list_omap fmap list_fmap].
      rewrite app_nil_r, (printed_queries_cons _ serial) by done.
      unfold printed_queries at 1. cbn [omap list_omap fmap list_fmap].
      split_and!; [done..|by destruct e|].
      destruct e; done.
    + apply raised_inr in Hsrv.
      destruct (IH (record_sent (set_donequeue st q) (printed_query serial)) Hq)
        as (k & st' & Hrun & Hlast & Hpre & Hend).
      exists (S k), st'. cbn in Hlast, Hpre, Hend.
      split_and!; try done.
      * intros [|i] it Hi Hit.
        -- cbn in Hit. simplify_eq. exists serial, replyxml.
           cbn. by rewrite app_nil_r.
        -- cbn in Hit. destruct (Hpre i it) as (s' & r' & Hs' & Hr'); [lia|done|].
           exists s', r'. split; [done|].
           by rewrite firstn_cons, (printed_queries_cons _ serial), cons_middle,
             app_assoc.
      * destruct Hend as [(-> & Hok & Hsent & Hdq & Hin)|
                          (it & s' & e & Hit & Hs' & Hr' & Hsent & He)].
        -- left. split_and!; try done.
           by rewrite Hsent, (printed_queries_cons _ serial), <- app_assoc.
        -- right. exists it, s', e. split_and!; try done.
           ++ by rewrite firstn_cons, (printed_queries_cons _ serial),
                cons_middle, app_assoc.
           ++ by rewrite Hsent, (firstn_cons (S k)),
                (printed_queries_cons _ serial), <- app_assoc.
Qed.


(** Whatever is in the queue, [markitemsdone] sends acknowledgements only
    and leaves the cursor alone. *)
Lemma markitemsdone_from_sent q : ∀ st,
  lastserial (state_of (markitemsdone_from srv q st)) = lastserial st ∧
  ∃ acks, sent (state_of (markitemsdone_from srv q st)) = sent st ++ acks ∧
          Forall is_ack acks.
Proof.
  induction q as [|item q IH]; intros st; cbn [markitemsdone_from].
  - split; [done|]. exists []. by rewrite app_nil_r.
  - destruct (item_serial item) as [serial|].
    2:{ split; [done|]. exists []. by rewrite app_nil_r. }
    unfold doservercmd. fold (printed_request serial).
    destruct (raised (srv _ _)) as [e|replyxml].
    + assert (∀ A (r : result feed A), state_of r = state_of r) by done.
      split; [by destruct e|]. exists [printed_request serial].
      split; [by destruct e|]. by apply Forall_singleton.
    + destruct (IH (record_sent (set_donequeue st q) (printed_request serial)))
        as (-> & acks & -> & Hacks).
      split; [done|]. exists (printed_request serial :: acks).
      cbn. rewrite <- app_assoc. split; [done|]. by constructor.
Qed.

(** *** Polling *)

Lemma getnext_request_is_poll n : is_poll (getnext_request n).
Proof. done. Qed.

(** The first poll of the loop is made with the cursor the loop is entered
    with, the loop sends polls only, and the cursor never goes back. *)
Lemma fetch_loop_sent fuel : ∀ st out,
  fetch_loop fuel srv st = Some out →
  lastserial st ≤ lastserial (state_of out) ∧
  donequeue (state_of out) = donequeue st ∧
  ∃ polls,
    sent (state_of out) = sent st ++ getnext_request (lastserial st) :: polls ∧
    Forall is_poll polls.
Proof.
  induction fuel as [|fuel IH]; intros st out; [done|].
  cbn [Twilio.fetch_loop]. unfold doservercmd.
  fold (getnext_request (lastserial st)).
  destruct (raised (srv _ _)) as [e|replyxml].
  { intros [= <-]. split_and!; [done..|]. by exists []. }
  destruct (handlereply _ replyxml) as [newserial st2|e st2] eqn:Hr;
    apply handlereply_frame in Hr as (Hl & Hs & Hd); cbn in Hl, Hs, Hd.
  2:{ intros [= <-]. cbn. rewrite Hl, Hs, Hd.
      split_and!; [done..|]. by exists []. }
  destruct (negb (newserial =? 0) && (lastserial st2 <? newserial)) eqn:Hc.
  2:{ intros [= <-]. cbn. rewrite Hl, Hs, Hd.
      split_and!; [done..|]. by exists []. }
  intros Hloop. apply IH in Hloop as (Hle & Hdq & polls & -> & Hpolls).
  cbn in *. apply andb_prop in Hc as [_ Hlt%Z.ltb_lt].
  split_and!; [lia|congruence|].
  exists (getnext_request newserial :: polls).
  rewrite Hs, <- app_assoc. split; [done|].
  constructor; [apply getnext_request_is_poll|done].
Qed.

(** The handlers of [fetchitems] queue an error item and do nothing else. *)
Lemma fetchitems_frame fuel idle st out :
  fetchitems fuel srv idle st = Some out →
  ∃ out', fetchitems_try fuel srv idle st = Some out' ∧
    lastserial (state_of out) = lastserial (state_of out') ∧
    sent (state_of out) = sent (state_of out') ∧
    donequeue (state_of out) = donequeue (state_of out').
Proof.
  unfold Twilio.fetchitems.
  destruct (fetchitems_try fuel srv idle st) as [[a st1|[] st1]|];
    intros [= <-]; by eexists.
Qed.

(** A cycle whose draining is incomplete ends there. *)
Lemma fetchitems_drain_incomplete fuel idle st st1 :
  markitemsdone srv st = Ok false st1 →
  fetchitems fuel srv idle st = Some (Ok () st1).
Proof. intros H. unfold Twilio.fetchitems, Twilio.fetchitems_try. by rewrite H. Qed.


(** C4 (amended). In every poll cycle the acknowledgements are sent before
    any poll.  When the draining is incomplete the cycle ends there, with
    no poll; polls are made only after the queue was drained. *)
Theorem drain_before_fetch fuel idle st out :
  fetchitems fuel srv idle st = Some out →
  ∃ acks polls,
    sent (state_of out) = sent st ++ acks ++ polls ∧
    Forall is_ack acks ∧ Forall is_poll polls ∧
    sent (state_of (markitemsdone srv st)) = sent st ++ acks ∧
    match markitemsdone srv st with
    | Ok true _ => polls ≠ []
    | Ok false st1 => polls = [] ∧ out = Ok () st1
    | Fail _ _ => polls = []
    end.
Proof.
  intros Hrun.
  destruct (markitemsdone_from_sent (donequeue st) st)
    as (_ & acks & Hacks & Hall).
  fold (markitemsdone srv st) in Hacks.
  destruct (markitemsdone srv st) as [[] st1|e st1] eqn:Hd; cbn in Hacks.
  - destruct (fetchitems_frame _ _ _ _ Hrun) as (out' & Htry & _ & -> & _).
    unfold Twilio.fetchitems_try in Htry. rewrite Hd in Htry.
    apply fetch_loop_sent in Htry as (_ & _ & polls & -> & Hpolls).
    eexists acks, (_ :: polls).
    split_and!; [|done| |done..].
    + replace (sent (if idle then _ else _)) with (sent st1) by by destruct idle.
      by rewrite Hacks, <- app_assoc.
    + constructor; [apply getnext_request_is_poll|done].
  - rewrite (fetchitems_drain_incomplete _ _ _ _ Hd) in Hrun.
    injection Hrun as <-. exists acks, []. by rewrite app_nil_r.
  - destruct (fetchitems_frame _ _ _ _ Hrun) as (out' & Htry & _ & -> & _).
    unfold Twilio.fetchitems_try in Htry. rewrite Hd in Htry.
    injection Htry as <-. exists acks, []. by rewrite app_nil_r.
Qed.

(** C6 (amended). When the queue of done items was drained and the feed
    is idle, the cursor is set to -1 before the first poll of the cycle,
    which is therefore the poll from the beginning: a [getnext] without
    [v1], the value 0 not being put in the request. *)
Theorem idle_resets_cursor fuel st st1 out :
  markitemsdone srv st = Ok true st1 →
  fetchitems fuel srv true st = Some out →
  fetchitems_try fuel srv true st = fetch_loop fuel srv (set_lastserial st1 (-1)) ∧
  getnext_request (-1) = Request "getnext" None None ∧
  -1 ≤ lastserial (state_of out) ∧
  ∃ polls,
    sent (state_of out) = sent st1 ++ getnext_request (-1) :: polls ∧
    Forall is_poll polls.
Proof.
  intros Hd Hrun.
  destruct (fetchitems_frame _ _ _ _ Hrun) as (out' & Htry & -> & -> & _).
  unfold Twilio.fetchitems_try in *. rewrite Hd in *.
  split_and!; [done..| |];
    by apply fetch_loop_sent in Htry as (? & _ & ?).
Qed.


(** A reply that begins with a message holding a tag without text, or
    without a serial number, is handled by that clause, no serial number
    having been seen. *)
Lemma handlereply_try_bad_first st m replyxml :
  match message_fields m ∅ with
  | inl _ => True
  | inr fields => fields !! "serial" = None
  end →
  ∃ e message,
    handlereply_try (m :: replyxml) (-1) st = (-1, Some e, st) ∧
    format_error e = Some message.
Proof.
  cbn [Twilio.handlereply_try]. destruct (message_fields m ∅) as [e|fields] eqn:Hm.
  - intros _. exists e.
    assert (∃ message, e = AttributeError message) as [message ->];
      [|by exists message].
    clear -Hm. revert Hm. generalize (∅ : gmap string string).
    induction m as [|t m IH]; intros fields; cbn; [done|].
    destruct (string_ t); [|intros [= <-]; by eexists].
    case_bool_decide; apply IH.
  - intros ->. by eexists _, _.
Qed.

(** The cursor is never below -1. *)
Lemma fetchitems_cursor_bound fuel idle st out :
  -1 ≤ lastserial st →
  fetchitems fuel srv idle st = Some out →
  -1 ≤ lastserial (state_of out).
Proof.
  intros Hst Hrun.
  destruct (fetchitems_frame _ _ _ _ Hrun) as (out' & Htry & -> & _).
  destruct (markitemsdone_from_sent (donequeue st) st) as (Hl & _).
  fold (markitemsdone srv st) in Hl.
  unfold Twilio.fetchitems_try in Htry.
  destruct (markitemsdone srv st) as [[] st1|e st1]; cbn in Hl;
    [|injection Htry as <-; cbn; lia..].
  apply fetch_loop_sent in Htry as (Hle & _). destruct idle; cbn in Hle; lia.
Qed.



End TwilioProps.

(** *** Examples *)

Section TwilioExamples.

Import Twilio.

Lemma done345_has_serial : Forall has_serial (donequeue done345).
Proof. repeat constructor; by eexists. Qed.


Example markitemsdone_stops_at_failure :
  ∃ st', markitemsdone srv_once done345 = Ok false st' ∧
    sent st' = [printed_query "3"; printed_query "4"] ∧
    donequeue st' = [MsgItem "5" ∅; MsgItem "4" ∅].
Proof. by eexists. Qed.


(** Witness of [drain_before_fetch]: one item to acknowledge and a server
    that has no message. *)
Lemma drain_before_fetch_witness :
  ∃ out,
    fetchitems dec_int pacific 1 (srv_const []) false read7_done3 = Some out ∧
    ∃ acks polls,
      sent (state_of out) = sent read7_done3 ++ acks ++ polls ∧
      Forall is_ack acks ∧ Forall is_poll polls ∧
      sent (state_of (markitemsdone (srv_const []) read7_done3))
      = sent read7_done3 ++ acks ∧
      match markitemsdone (srv_const []) read7_done3 with
      | Ok true _ => polls ≠ []
      | Ok false st1 => polls = [] ∧ out = Ok () st1
      | Fail _ _ => polls = []
      end.
Proof.
  eexists. split; [reflexivity|].
  apply (drain_before_fetch dec_int pacific (srv_const []) 1 false read7_done3).
  reflexivity.
Defined.

(** Counterexample to C4 as stated: with one item to acknowledge and the
    network down, draining reports incomplete and the cycle ends without
    a poll, whatever the number of polls allowed and whether the feed is
    idle or not. *)
Lemma fetch_skipped_counterexample :
  ∃ st1,
    markitemsdone srv_down read7_done3 = Ok false st1 ∧
    sent st1 = [printed_request "3"] ∧
    ¬ Exists is_poll (sent st1) ∧
    ∀ fuel idle,
      fetchitems dec_int pacific fuel srv_down idle read7_done3 = Some (Ok () st1).
Proof.
  eexists. split; [reflexivity|]. split; [reflexivity|]. split.
  - intros [H|H%Exists_nil]%Exists_cons; [discriminate H|done].
  - intros fuel idle. by apply fetchitems_drain_incomplete.
Qed.

(** Witness of [idle_resets_cursor]: an idle feed that read up to serial
    number 7. *)
Lemma idle_resets_cursor_witness :
  ∃ st1 out,
    markitemsdone (srv_const []) read7 = Ok true st1 ∧
    fetchitems dec_int pacific 1 (srv_const []) true read7 = Some out ∧
    fetchitems_try dec_int pacific 1 (srv_const []) true read7
    = fetch_loop dec_int pacific 1 (srv_const []) (set_lastserial st1 (-1)) ∧
    getnext_request (-1) = Request "getnext" None None ∧
    -1 ≤ lastserial (state_of out) ∧
    ∃ polls,
      sent (state_of out) = sent st1 ++ getnext_request (-1) :: polls ∧
      Forall is_poll polls.
Proof.
  eexists _, _. split; [reflexivity|]. split; [reflexivity|].
  apply (idle_resets_cursor dec_int pacific (srv_const []) 1 read7); reflexivity.
Defined.

(** Counterexample to C6 as stated: the feed is idle at the start of the
    cycle, but the network is down; the cursor stays at 7, and the poll of
    the next cycle, the network being up again, asks for the serial
    numbers from 8 on. *)
Lemma idle_without_reset_counterexample :
  ∃ st1 st2,
    fetchitems dec_int pacific 1 srv_down true read7_done3 = Some (Ok () st1) ∧
    lastserial st1 = 7 ∧
    sent st1 = [printed_request "3"] ∧
    fetchitems dec_int pacific 1 (srv_const []) false st1 = Some (Ok () st2) ∧
    lastserial st2 = 7 ∧
    sent st2 = [printed_request "3"; printed_request "3";
                Request "getnext" (Some (VInt 8)) None].
Proof. eexists _, _. by split_and!. Qed.



End TwilioExamples.

(** ** The weather parser *)

Section StringProps.

Lemma lstrip_list_idemp l : lstrip_list (lstrip_list l) = lstrip_list l.
Proof.
  induction l as [|c l IH]; cbn; [done|].
  destruct (isspace c) eqn:H; [done|]. cbn. by rewrite H.
Qed.

Lemma lstrip_list_suffix l : ∃ sp, l = sp ++ lstrip_list l.
Proof.
  induction l as [|c l [sp IH]]; cbn; [by exists []|].
  destruct (isspace c); [|by exists []].
  exists (c :: sp). cbn. by rewrite <- IH.
Qed.

Lemma lstrip_list_head l c l' :
  lstrip_list l = c :: l' → isspace c = false.
Proof.
  induction l as [|c0 l IH]; cbn; [done|].
  destruct (isspace c0) eqn:H; [done|]. by intros [= <- _].
Qed.

(** Stripping what was stripped changes nothing. *)
Lemma strip_idemp s : strip (strip s) = strip s.
Proof.
  unfold strip. rewrite list_ascii_of_string_of_list_ascii.
  set (A := lstrip_list (list_ascii_of_string s)).
  set (B := lstrip_list (reverse A)).
  assert (lstrip_list (reverse B) = reverse B) as ->.
  { destruct (lstrip_list_suffix (reverse A)) as [sp Hsp]. fold B in Hsp.
    apply (f_equal reverse) in Hsp.
    rewrite reverse_involutive, reverse_app in Hsp.
    destruct (reverse B) as [|c R] eqn:HR; [done|].
    cbn in Hsp. subst A.
    apply lstrip_list_head in Hsp. cbn. by rewrite Hsp. }
  rewrite reverse_involutive. unfold B. by rewrite lstrip_list_idemp.
Qed.

Lemma upper_Z_nonempty x : upper x = "Z" → (0 <? String.length x)%nat = true.
Proof. by destruct x. Qed.

End StringProps.

Section NWSProps.

Import NWS.

Variable datetime : Type.
Variable strptime : string → option datetime.
Variable minus_minutes : datetime → Z → option datetime.
Variable replace_tzinfo : datetime → datetime.
Variable CODE_STATE : gmap string string.

Abbreviation parseisotime :=
  (parseisotime datetime strptime minus_minutes replace_tzinfo).
Abbreviation _parseheader :=
  (_parseheader datetime strptime minus_minutes replace_tzinfo CODE_STATE).
Abbreviation _parsetimeitems :=
  (_parsetimeitems datetime strptime minus_minutes replace_tzinfo).
Abbreviation _parsetimelayouts_loop :=
  (_parsetimelayouts_loop datetime strptime minus_minutes replace_tzinfo).
Abbreviation _parsetimelayouts :=
  (_parsetimelayouts datetime strptime minus_minutes replace_tzinfo).
Abbreviation parse_try :=
  (parse_try datetime strptime minus_minutes replace_tzinfo CODE_STATE).
Abbreviation parse :=
  (parse datetime strptime minus_minutes replace_tzinfo CODE_STATE).

(** *** Timestamps *)

(** A timestamp in Zulu notation, whatever the clock makes of its first
    nineteen characters, is not converted: the name [offset] is read
    unbound. *)
Lemma parseisotime_zulu s dt :
  strptime (substring 0 19 (strip s)) = Some dt →
  upper (substring 19 (String.length (strip s)) (strip s)) = "Z" →
  parseisotime s = inl (UnboundLocalError "offset").
Proof.
  intros Hdt HZ. unfold NWS.parseisotime. rewrite Hdt.
  rewrite (upper_Z_nonempty _ HZ). by rewrite bool_decide_eq_true_2.
Qed.

Lemma parseisotime_raises s e : parseisotime s = inl e → expected e.
Proof.
  unfold NWS.parseisotime, expected, escapes, mbind, exn_bind.
  repeat case_match; intros ?; simplify_eq; cbn; eauto 10.
Qed.

Lemma _find_raises keys : ∀ tree key e,
  _find tree key keys = inl e → expected e.
Proof.
  induction keys as [|k keys IH]; intros tree key e; cbn;
    destruct (find tree key); intros ?; simplify_eq;
    try (left; by eexists); eauto.
Qed.

(** *** The steps of a method *)

#[local] Existing Instances M_ret M_bind M_throw.

Lemma bind_Fail {A B} (m : M datetime A) (f : A → M datetime B) st e st' :
  (m ≫= f) st = Fail e st' →
  m st = Fail e st' ∨ ∃ a st1, m st = Ok a st1 ∧ f a st1 = Fail e st'.
Proof.
  unfold mbind, M_bind. destruct (m st) as [a st1|e1 st1]; intros H.
  - right. by exists a, st1.
  - left. by simplify_eq.
Qed.

Lemma lift_Fail {A} (x : exn + A) (st : nwsxml datetime) e st' :
  lift datetime x st = Fail e st' → x = inl e.
Proof. by destruct x; intros [=]; subst. Qed.

Lemma require_Fail {A} (x : option A) e0 (st : nwsxml datetime) e st' :
  require datetime x e0 st = Fail e st' → e = e0.
Proof. by destruct x; intros [=]. Qed.

Lemma RuntimeError_expected message : expected (RuntimeError message).
Proof. left. by eexists. Qed.

Ltac step_Fail :=
  repeat match goal with
    | H : (_ ≫= _) _ = Fail _ _ |- _ =>
        apply bind_Fail in H as [H|(? & ? & _ & H)]
    | H : lift _ _ _ = Fail _ _ |- _ => apply lift_Fail in H
    | H : require _ _ _ _ = Fail _ _ |- _ =>
        apply require_Fail in H as ->; apply RuntimeError_expected
    | H : modify _ _ _ = Fail _ _ |- _ => discriminate H
    | H : mret _ _ = Fail _ _ |- _ => discriminate H
    | H : mthrow (RuntimeError _) _ = Fail _ _ |- _ =>
        injection H as <- _; apply RuntimeError_expected
    | H : _find _ _ _ = inl _ |- _ => by apply _find_raises in H
    | H : parseisotime _ = inl _ |- _ => by apply parseisotime_raises in H
    | H : (if ?b then _ else _) _ = Fail _ _ |- _ => destruct b
    end.

(** *** The exceptions each method can raise *)

Lemma _parseheader_raises tree st e st' :
  _parseheader tree st = Fail e st' → expected e.
Proof.
  unfold NWS._parseheader. intros H. step_Fail.
  destruct (find _ "city") as [cityitem|]; step_Fail.
  destruct (_ <$> _); step_Fail.
  injection H as <- _. right. unfold escapes. tauto.
Qed.

Lemma _parsetimeitems_raises timeitems : ∀ timeitemlist e,
  _parsetimeitems timeitems timeitemlist = inl e → expected e.
Proof.
  induction timeitems as [|timeitem timeitems IH]; intros l e; cbn; [done|].
  destruct (text timeitem) as [periodtime|];
    [|intros [= <-]; apply RuntimeError_expected].
  case_bool_decide; [done|]. unfold mbind, exn_bind.
  destruct (parseisotime _) eqn:Hp; [|by apply IH].
  intros [= ->]. by apply parseisotime_raises in Hp.
Qed.

Lemma _parsetimelayouts_loop_raises trees : ∀ timelayouts e,
  _parsetimelayouts_loop trees timelayouts = inl e → expected e.
Proof.
  induction trees as [|tree trees IH]; intros timelayouts e;
    cbn [NWS._parsetimelayouts_loop]; [done|].
  unfold mbind, exn_bind.
  destruct (_find _ _ _) as [e1|keytag] eqn:Hf.
  { intros [= ->]. by apply _find_raises in Hf. }
  destruct (text keytag); [|intros [= <-]; apply RuntimeError_expected].
  destruct (_parsetimeitems _ _) as [e1|[[|timeitem timeitems]|]] eqn:Hi;
    [|by apply IH..].
  intros [= ->]. by apply _parsetimeitems_raises in Hi.
Qed.

Lemma forecasttexts_loop_raises items : ∀ texts e,
  forecasttexts_loop items texts = inl e → expected e.
Proof.
  induction items as [|item items IH]; intros texts e; cbn; [done|].
  destruct (text item); [by apply IH|].
  intros [= <-]. right. unfold escapes. tauto.
Qed.

Lemma _parseforecasts_loop_raises timelayouts wordedforecasts : ∀ st e st',
  _parseforecasts_loop datetime wordedforecasts timelayouts st = Fail e st' →
  expected e.
Proof.
  induction wordedforecasts as [|wordedforecast wordedforecasts IH];
    intros st e st'; cbn [NWS._parseforecasts_loop]; [done|].
  intros H. step_Fail; try by eapply IH.
  by apply forecasttexts_loop_raises in H.
Qed.

Lemma parse_try_raises tree st e st' :
  parse_try tree st = Fail e st' → expected e.
Proof.
  unfold NWS.parse_try. intros H. step_Fail.
  - by apply _parseheader_raises in H.
  - by apply _parsetimelayouts_loop_raises in H.
  - by apply _parseforecasts_loop_raises in H.
Qed.

(** *** What [parse] does with them *)

(** An exception that the [except] clause names is recorded in [err],
    [parse] returns, and [asString] gives the error line. *)
Lemma parse_records_failure tree st e st' message :
  parse_try tree st = Fail e st' →
  caught e = Some message →
  ∃ st'',
    parse tree st = Ok () st'' ∧
    err st'' = Some ("Unable to interpret weather data: " +:+ message +:+ ".") ∧
    asString_error st''
    = Some ("ERROR: Unable to interpret weather data: " +:+ message +:+ ".").
Proof.
  intros Ht Hc. unfold NWS.parse. rewrite Ht, Hc. eexists.
  split; [done|]. split; [done|].
  unfold asString_error. cbn [err set_err]. by rewrite bool_decide_eq_true_2.
Qed.

(** X24. The exceptions that come out of [parse] are the other ones: the
    [ValueError] of [strptime], the [OverflowError] of the subtraction,
    the unbound [offset], the [TypeError] of a city without a state and
    the [AttributeError] of a forecast without text. *)
Lemma parse_raises_only tree st e st' :
  parse tree st = Fail e st' →
  parse_try tree st = Fail e st' ∧ caught e = None ∧ escapes e.
Proof.
  unfold NWS.parse.
  destruct (parse_try tree st) as [a st1|e1 st1] eqn:Ht; [done|].
  destruct (caught e1) eqn:Hc; [done|]. intros [= -> ->].
  split_and!; [done..|].
  apply parse_try_raises in Ht as [[message Hm]|?]; [congruence|done].
Qed.

(** C7 (what the code does). On a report whose creation time is in Zulu
    notation, the first nineteen characters being a timestamp for [strptime],
    [parse] does not return: it raises the [UnboundLocalError] of
    [parseisotime], which its [except] clause does not name, and [err] is
    not set. *)
Theorem parse_raises_on_zulu_time tree st dwmlitem productitem creationitem t dt :
  (if bool_decide (tag tree = "dwml") then inr tree
   else _find tree "dwml" []) = inr dwmlitem →
  _find dwmlitem "head" ["product"] = inr productitem →
  _find productitem "creation-date" [] = inr creationitem →
  text creationitem = Some t →
  strptime (substring 0 19 (strip t)) = Some dt →
  upper (substring 19 (String.length (strip t)) (strip t)) = "Z" →
  parse tree st = Fail (UnboundLocalError "offset") st ∧
  caught (UnboundLocalError "offset") = None.
Proof.
  intros Hdwml Hproduct Hcreation Htext Hdt HZ. split; [|done].
  assert (parseisotime (strip t) = inl (UnboundLocalError "offset")) as Hp.
  { apply (parseisotime_zulu _ dt); by rewrite strip_idemp. }
  unfold NWS.parse, NWS.parse_try, NWS._parseheader.
  unfold mbind, M_bind, lift, require, mret, M_ret, mthrow, M_throw.
  assert ((if bool_decide (tag tree = "dwml")
           then (λ st, Ok tree st) : M datetime element
           else match _find tree "dwml" [] with
                | inl e => λ st, Fail e st
                | inr a => λ st, Ok a st
                end) st = Ok dwmlitem st) as ->.
  { case_bool_decide; simplify_eq; [done|]. by rewrite Hdwml. }
  by rewrite Hproduct, Hcreation, Htext, Hp.
Qed.

End NWSProps.

(** *** Examples *)

Section NWSExamples.

Import NWS.

Abbreviation sample_parse :=
  (parse sample_datetime sample_strptime sample_minus_minutes
     sample_replace_tzinfo ∅).

(** Witness of [parse_raises_on_zulu_time]: a report created at
    2015-06-01T12:00:00Z. *)
Lemma parse_raises_on_zulu_time_witness :
  sample_parse zulu_report init = Fail (UnboundLocalError "offset") init ∧
  caught (UnboundLocalError "offset") = None.
Proof.
  eapply (parse_raises_on_zulu_time sample_datetime sample_strptime
            sample_minus_minutes sample_replace_tzinfo ∅ zulu_report init);
    reflexivity.
Defined.

(** A report without a creation time is a failure that [parse] records. *)
Example parse_records_missing_date :
  ∃ st, sample_parse undated_report init = Ok () st ∧
    asString_error st =
      Some ("ERROR: Unable to interpret weather data: " +:+
            "NWS weather report XML format unexpected. Did not find " +:+
            dquote +:+ "creation-date" +:+ dquote +:+ " inside XML tag " +:+
            dquote +:+ "product" +:+ dquote +:+ ".").
Proof. by eexists. Qed.

End NWSExamples.

(** * More properties of the code *)

(** ** The dummy Teletype: what is written, what is read *)

Section TeletypeMore.

Import Teletype.

Variables FIGS LTRS CR : Z.
Variable chToBaudot : ascii → option Z * option Z.
Variable chToASCII : Z → option Z → option ascii.

Abbreviation write_byte := (write_byte FIGS LTRS chToASCII).
Abbreviation write := (write FIGS LTRS chToASCII).
Abbreviation read_char := (read_char chToBaudot).
Abbreviation read_loop := (read_loop chToBaudot).
Abbreviation read := (read CR chToBaudot).
Abbreviation decoded := (decoded FIGS LTRS chToASCII).
Abbreviation untypable := (untypable chToBaudot).
Abbreviation key_of := (key_of chToBaudot).
Abbreviation byte_key := (byte_key chToBaudot).

Lemma append_assoc (a b c : string) : (a +:+ b) +:+ c = a +:+ (b +:+ c).
Proof.
  induction a as [|x a IH]; [done|].
  change (String x ((a +:+ b) +:+ c) = String x (a +:+ (b +:+ c))).
  by rewrite IH.
Qed.

Lemma append_empty (s : string) : s +:+ "" = s.
Proof.
  induction s as [|a s IH]; [done|].
  change (String a (s +:+ "") = String a s). by rewrite IH.
Qed.

Lemma length_list_ascii (s : string) :
  length (list_ascii_of_string s) = String.length s.
Proof. induction s as [|a s IH]; [done|]. cbn. by rewrite IH. Qed.

(** The loop of [write]: the lines it logs and the line it leaves. *)
Lemma write_loop_text s : ∀ st,
  ∃ lines,
    logged (foldl write_byte st s) = logged st ++ (Info <$> lines) ∧
    Forall (λ line, line ≠ "") lines ∧
    foldr String.append "" lines +:+ outline (foldl write_byte st s)
    = outline st +:+
      string_of_list_ascii
        (filter (λ c, ¬ is_eol c) (decoded (outshift st) s)).
Proof.
  induction s as [|bb s IH]; intros st.
  { exists []. cbn. by rewrite app_nil_r, append_empty. }
  cbn [foldl Teletype.decoded].
  destruct (IH (write_byte st bb)) as (lines & Hlog & Hne & Htext).
  set (st1 := write_byte st bb) in *.
  assert (st1 = write_byte st bb) as Hst1 by done. clearbody st1.
  unfold Teletype.write_byte in Hst1.
  destruct (decide (bb = FIGS)) as [HF|HF].
  { rewrite decide_True by tauto. subst st1. by exists lines. }
  destruct (decide (bb = LTRS)) as [HL|HL].
  { rewrite decide_True by tauto. subst st1. by exists lines. }
  rewrite decide_False by tauto.
  destruct (chToASCII bb (outshift st)) as [ch|] eqn:Hch; cbn [option_list app].
  2:{ subst st1. by exists lines. }
  change (option_list (Some ch) ++ ?l) with (ch :: l).
  destruct (decide (ch = chr 10 ∨ ch = chr 13)) as [Heol|Heol].
  - rewrite filter_cons_False by (intros H; by apply H).
    unfold flushOutput in Hst1.
    destruct (outline st) as [|a line] eqn:Hline; cbn in Hst1; subst st1.
    + exists lines. by rewrite Hline in Htext.
    + exists (String a line :: lines). cbn in Hlog, Htext |- *.
      rewrite Hlog, <- app_assoc. split_and!; [done|by constructor|].
      by rewrite append_assoc, Htext.
  - rewrite filter_cons_True by done. subst st1.
    exists lines. split_and!; [done..|].
    rewrite Htext. cbn [outshift set_outline outline string_of_list_ascii].
    by rewrite append_assoc.
Qed.

(** X1. [write] loses no character and logs no empty line: the lines it
    logs, in order, followed by the line it leaves in the buffer, are the
    line that was in the buffer followed by the characters of the stream
    that are no line ends. *)
Theorem write_keeps_text (st : tty) (s : list Z) :
  ∃ lines,
    logged (write st s) = logged st ++ (Info <$> lines) ∧
    Forall (λ line, line ≠ "") lines ∧
    foldr String.append "" lines +:+ outline (write st s)
    = outline st +:+
      string_of_list_ascii
        (filter (λ c, ¬ is_eol c) (decoded (outshift st) s)).
Proof. apply write_loop_text. Qed.

Lemma read_frame_refl st : read_frame st st.
Proof. split_and!; [done..|]. exists []. by rewrite app_nil_r. Qed.

Lemma read_frame_trans st1 st2 st3 :
  read_frame st1 st2 → read_frame st2 st3 → read_frame st1 st3.
Proof.
  intros (Ha1 & Hb1 & Hc1 & l1 & H1) (Ha2 & Hb2 & Hc2 & l2 & H2).
  split_and!; [congruence..|]. exists (l1 ++ l2). by rewrite H2, H1, app_assoc.
Qed.

Lemma read_frame_log st r : read_frame st (log st r).
Proof. split_and!; [done..|]. by exists [r]. Qed.

Lemma read_frame_inshift st v : read_frame st (set_inshift st v).
Proof. split_and!; [done..|]. exists []. by rewrite app_nil_r. Qed.

Lemma key_code_frame st c :
  read_frame st (Teletype.key_code chToBaudot st c).2.
Proof.
  unfold Teletype.key_code. repeat case_decide;
    first [apply read_frame_refl | apply read_frame_log].
Qed.

Ltac solve_frame :=
  cbn [outcome_state];
  first
    [ apply read_frame_refl | apply read_frame_log | apply read_frame_inshift
    | eapply read_frame_trans;
      [apply read_frame_inshift | first [apply read_frame_refl | apply read_frame_log]] ].

Lemma read_char_frame st acc c :
  read_frame st (outcome_state (read_char st acc c)).
Proof.
  unfold Teletype.read_char.
  destruct (decide (c = chr CTLC)); [apply read_frame_log|].
  set (k := if decide (c = chr 10) then chr 13 else c). clearbody k.
  pose proof (key_code_frame st k) as Hk.
  destruct (Teletype.key_code chToBaudot st k) as [[bb shift] st0].
  cbn [snd] in Hk. eapply read_frame_trans; [exact Hk|]. clear Hk.
  unfold append.
  destruct shift as [sh|]; [destruct (decide (Some sh = inshift st0))|].
  - destruct bb as [b|]; [destruct (is_byte b)|]; solve_frame.
  - destruct (is_byte sh); [|solve_frame].
    destruct bb as [b|]; [destruct (is_byte b)|]; solve_frame.
  - destruct bb as [b|]; [destruct (is_byte b)|]; solve_frame.
Qed.

Lemma read_loop_frame keys : ∀ st acc,
  read_frame st (outcome_state (read_loop st acc keys)).
Proof.
  induction keys as [|c keys IH]; intros st acc; cbn [Teletype.read_loop].
  { apply read_frame_refl. }
  pose proof (read_char_frame st acc c) as Hc.
  destruct (read_char st acc c) as [acc1 st1| |]; [|done..].
  eapply read_frame_trans; [exact Hc|apply IH].
Qed.

Lemma flushOutput_frame st :
  outshift (flushOutput st) = outshift st ∧
  flushtimer (flushOutput st) = flushtimer st ∧
  inshift (flushOutput st) = inshift st ∧
  logged (flushOutput st)
  = logged st ++ (if decide (outline st = "") then [] else [Info (outline st)]).
Proof.
  unfold flushOutput. destruct (outline st) as [|a line] eqn:Hline; cbn.
  - by rewrite app_nil_r.
  - done.
Qed.

(** X2. [read] begins by flushing the output: the line that was waiting,
    if any, is logged before anything [read] logs, the line buffer is
    empty when [read] ends, however it ends, and neither the output shift
    nor the timer is touched. *)
Theorem read_flushes_output (st : tty) (text : string) :
  outline (outcome_state (read st text)) = "" ∧
  outshift (outcome_state (read st text)) = outshift st ∧
  flushtimer (outcome_state (read st text)) = flushtimer st ∧
  ∃ l, logged (outcome_state (read st text))
       = logged st ++
         (if decide (outline st = "") then [] else [Info (outline st)]) ++ l.
Proof.
  assert (read_frame (flushOutput st) (outcome_state (read st text)))
    as (Ho & Hs & Ht & l & Hl).
  { unfold Teletype.read.
    pose proof (read_loop_frame (encode_ascii_replace text) (flushOutput st) [])
      as Hloop.
    destruct (read_loop _ _ _) as [bs st1| |]; [|done..].
    cbn [outcome_state] in Hloop.
    case_decide; [|done]. unfold append. by destruct (is_byte CR). }
  destruct (flushOutput_frame st) as (Hs0 & Ht0 & _ & Hl0).
  rewrite Ho, Hs, Ht, Hl, Hl0, flushOutput_outline, <- app_assoc.
  split_and!; [done..|]. by exists l.
Qed.

(** *** Control-C *)

Lemma read_char_outcomes st acc c :
  match read_char st acc c with
  | Ret _ _ => c ≠ chr CTLC
  | Exit code st' =>
      code = 0 ∧ c = chr CTLC ∧ st' = log st (Info "Control-C abort")
  | Raise e _ => e = ValueError ∧ c ≠ chr CTLC ∧ ¬ byte_key c
  end.
Proof.
  unfold Teletype.read_char, byte_key.
  destruct (decide (c = chr CTLC)); [done|].
  fold (keyed c).
  destruct (key_code_state chToBaudot st (keyed c)) as [-> _].
  destruct (key_of (keyed c)) as [bb shift].
  set (st0 := (Teletype.key_code chToBaudot st (keyed c)).2). clearbody st0.
  unfold append. cbn [fst snd].
  destruct shift as [sh|]; [destruct (decide (Some sh = inshift st0))|].
  - destruct bb as [b|]; [destruct (is_byte b) eqn:Hb|]; try done.
    split_and!; try done. intros [H _]. specialize (H b eq_refl). congruence.
  - destruct (is_byte sh) eqn:Hsh.
    + destruct bb as [b|]; [destruct (is_byte b) eqn:Hb|]; try done.
      split_and!; try done. intros [H _]. specialize (H b eq_refl). congruence.
    + split_and!; try done. intros [_ H]. specialize (H sh eq_refl). congruence.
  - destruct bb as [b|]; [destruct (is_byte b) eqn:Hb|]; try done.
    split_and!; try done. intros [H _]. specialize (H b eq_refl). congruence.
Qed.

(** A key other than control-C all of whose code-points are bytes is
    read. *)
Lemma read_char_byte_key st acc c :
  c ≠ chr CTLC → byte_key c → ∃ acc' st', read_char st acc c = Ret acc' st'.
Proof.
  intros Hc Hb. pose proof (read_char_outcomes st acc c) as Ho.
  destruct (read_char st acc c) as [acc' st'|code st'|e st'].
  - by eexists _, _.
  - by destruct Ho as (_ & ? & _).
  - by destruct Ho as (_ & _ & ?).
Qed.





(** *** Keys that cannot be typed *)

Lemma read_loop_untypable keys : ∀ st acc,
  Forall untypable keys →
  read_loop st acc keys
  = Ret acc (foldl (λ st c, log st (CannotType (keyed c))) st keys).
Proof.
  induction keys as [|c keys IH]; intros st acc Hall; [done|].
  apply Forall_cons in Hall as [(Hspecial & Hc & Hnone) Hall].
  cbn [Teletype.read_loop foldl].
  assert (read_char st acc c = Ret acc (log st (CannotType (keyed c)))) as ->.
  { unfold Teletype.read_char. rewrite decide_False by done.
    fold (keyed c). unfold Teletype.key_code.
    rewrite decide_False by (intros H; apply Hspecial; rewrite H; set_solver).
    rewrite decide_False
      by (intros [H|H]; apply Hspecial; rewrite H; set_solver).
    by rewrite Hnone. }
  by apply IH.
Qed.

(** X4. A text none of whose characters can be typed, the empty text
    among them, is read as a lone CR: every character is skipped with one
    error record, in order, and the input shift is left as it was. *)
Theorem read_untypable (st : tty) (text : string) :
  Forall untypable (encode_ascii_replace text) →
  is_byte CR = true →
  read st text
  = Ret [CR] (foldl (λ st c, log st (CannotType (keyed c))) (flushOutput st)
                (encode_ascii_replace text)) ∧
  inshift (foldl (λ st c, log st (CannotType (keyed c))) (flushOutput st)
             (encode_ascii_replace text)) = inshift st.
Proof.
  intros Hall HCR. split.
  - unfold Teletype.read. rewrite read_loop_untypable by done.
    rewrite decide_True by done. unfold append. cbn. by rewrite HCR.
  - destruct (flushOutput_frame st) as (_ & _ & <- & _).
    generalize (flushOutput st). clear Hall.
    induction (encode_ascii_replace text) as [|c l IH]; intros st0; [done|].
    cbn [foldl]. by rewrite IH.
Qed.

(** *** How much is read *)

Lemma shift_keyed_length keys : ∀ cur,
  (length (shift_keyed cur keys) ≤ 2 * length keys)%nat.
Proof.
  induction keys as [|[bb shift] keys IH]; intros cur; cbn [shift_keyed]; [done|].
  case_decide; rewrite ?length_app.
  - specialize (IH shift). destruct shift, bb; cbn in *; lia.
  - specialize (IH cur). destruct bb; cbn in *; lia.
Qed.

(** X5. What [read] returns for a text is at most twice as long as the
    text, and one more: a shift and a code-point for each character, and
    the CR at the end. *)
Theorem read_length_bound (st : tty) (text : string) (out : list Z) (st' : tty) :
  read st text = Ret out st' →
  (length out ≤ 2 * String.length text + 1)%nat.
Proof.
  unfold Teletype.read.
  destruct (read_loop _ _ _) as [bs st1| |] eqn:Hloop; [|done..].
  apply (read_loop_emits chToBaudot chToASCII) in Hloop as [-> _].
  assert (length (shift_keyed (inshift (flushOutput st))
            (Teletype.key_of chToBaudot <$> (keyed <$> encode_ascii_replace text)))
          ≤ 2 * String.length text)%nat as Hlen.
  { etrans; [apply shift_keyed_length|].
    rewrite !length_fmap. unfold encode_ascii_replace.
    by rewrite length_fmap, length_list_ascii. }
  cbn [app] in *. case_decide.
  - unfold append. destruct (is_byte CR); [|done].
    intros [= <- _]. rewrite length_app. cbn. lia.
  - intros [= <- _]. lia.
Qed.

End TeletypeMore.

(** *** Examples, with the US-TTY code *)

Section TeletypeMoreExamples.

Import Teletype.

Ltac by_compute := apply (bool_decide_unpack _); vm_compute; exact I.


(** With a code whose figures shift is no byte, the key 1 raises on a
    fresh Teletype and the control-C after it is not reached. *)
Example read_ctlc_after_bad_key :
  let chToBaudot (c : ascii) : option Z * option Z :=
    if decide (c = "1"%char) then (Some 23, Some 256) else (None, None) in
  ¬ byte_key chToBaudot "1" ∧
  read 8 chToBaudot init (String "1" (String (chr 3) ""))
  = Raise ValueError init.
Proof.
  split; [|reflexivity].
  intros [_ H]. specialize (H 256 eq_refl). discriminate H.
Qed.

Lemma untypable_text :
  Forall (untypable USTTY.chToBaudot) (encode_ascii_replace "a~").
Proof.
  repeat first [apply Forall_nil_2 | apply Forall_cons_2];
    (split_and!; [by_compute | by_compute | reflexivity]).
Qed.

(** Witness of [read_untypable]: the US-TTY code has no small letter and
    no tilde. *)
Lemma read_untypable_witness :
  USTTY.read init "a~"
  = Ret [USTTY.CR]
      (foldl (λ st c, log st (CannotType (keyed c))) (flushOutput init)
         (encode_ascii_replace "a~")) ∧
  inshift (foldl (λ st c, log st (CannotType (keyed c))) (flushOutput init)
             (encode_ascii_replace "a~")) = inshift init.
Proof.
  apply (read_untypable USTTY.CR USTTY.chToBaudot USTTY.chToASCII init "a~");
    [exact untypable_text | reflexivity].
Defined.

(** Witness of [read_length_bound]: four keys give seven code-points. *)
Lemma read_length_bound_witness :
  (length [31; 3; 25; 27; 23; 19; 8] ≤ 2 * String.length "AB12" + 1)%nat.
Proof.
  apply (read_length_bound USTTY.CR USTTY.chToBaudot USTTY.chToASCII init "AB12"
           [31; 3; 25; 27; 23; 19; 8] (set_inshift init (Some 27))).
  reflexivity.
Defined.

End TeletypeMoreExamples.

(** ** The SMS feed: replies, the queue of done items, the cursor *)

Section TwilioMore.

Import Twilio.

Variable py_int : string → option Z.
Variable clk : clock.
Variable srv : server.

Abbreviation processmsg := (processmsg clk).
Abbreviation handlemsg := (handlemsg clk).
Abbreviation handlereply_try := (handlereply_try py_int clk).
Abbreviation handlereply := (handlereply py_int clk).
Abbreviation fetch_loop := (fetch_loop py_int clk).
Abbreviation fetchitems_try := (fetchitems_try py_int clk).
Abbreviation fetchitems := (fetchitems py_int clk).
Abbreviation message_item := (message_item py_int clk).

(** *** Well-formed replies *)

(** [time_ok] says when [maketimelocal] returns. *)
Lemma maketimelocal_time_ok rcvtime timestamp :
  strptime clk rcvtime = Some timestamp →
  (time_ok clk rcvtime → ∃ local, maketimelocal clk timestamp = inr local) ∧
  (¬ time_ok clk rcvtime → maketimelocal clk timestamp = inl OverflowError).
Proof.
  intros Hp. unfold time_ok, maketimelocal. rewrite Hp.
  assert (negb (tm_isdst clk =? 0) && negb (daylight clk =? 0)
          = bool_decide (tm_isdst clk ≠ 0 ∧ daylight clk ≠ 0)) as ->.
  { case_bool_decide as H.
    - destruct H as [H1%Z.eqb_neq H2%Z.eqb_neq]. by rewrite H1, H2.
    - apply andb_false_iff.
      destruct (Z.eqb_spec (tm_isdst clk) 0); [by left|].
      destruct (Z.eqb_spec (daylight clk) 0); [by right|]. by destruct H. }
  set (offsetsecs := if bool_decide _ then _ else _).
  destruct (Z.leb_spec 0 (timestamp + offsetsecs));
    destruct (Z.leb_spec (timestamp + offsetsecs) MAXSECONDS); cbn;
    (split; [intros Hok|intros Hno]); first [by eexists | done | lia | (exfalso; lia)].
Qed.

Lemma handlemsg_message_item m fields serial n item st :
  message_fields m ∅ = inr fields →
  fields !! "serial" = Some serial →
  message_item m = Some (n, item) →
  py_int serial = Some n ∧ handlemsg st fields = Ok () (put_inqueue st item).
Proof.
  intros Hf Hs. unfold Twilio.message_item. rewrite Hf, Hs. cbn.
  destruct (py_int serial) as [n'|]; [|done]. cbn.
  unfold Twilio.handlemsg, Twilio.processmsg, logerror. rewrite Hs.
  case_bool_decide as He.
  - destruct (fields !! "rcvtime") as [rcvtime|]; [|done]. cbn.
    case_bool_decide as Ht; [|done]. intros [= <- <-].
    split; [done|].
    assert (negb (bool_decide (default "1" (fields !! "errormsg") = "")) &&
            negb (bool_decide (default "1" (fields !! "errormsg") = "0"))
            = false) as -> by by destruct He as [-> | ->].
    destruct (strptime clk rcvtime) as [timestamp|] eqn:Hp; [|done].
    destruct (maketimelocal_time_ok _ _ Hp) as [Hok _].
    by destruct (Hok Ht) as [local ->].
  - intros [= <- <-]. split; [done|].
    destruct (fields !! "errormsg") as [e|]; [|done]. cbn.
    rewrite !bool_decide_eq_false_2; [done|..]; naive_solver.
Qed.

Lemma handlereply_try_items msgs : ∀ l st n0,
  Forall2 (λ m x, message_item m = Some x) msgs l →
  handlereply_try msgs n0 st
  = (foldl Z.max n0 l.*1, None, foldl put_inqueue st l.*2).
Proof.
  induction msgs as [|m msgs IH]; intros l st n0 Hall.
  { by apply Forall2_nil_inv_l in Hall as ->. }
  apply Forall2_cons_inv_l in Hall as ([n item] & l' & Hm & Hall & ->).
  cbn [Twilio.handlereply_try fmap list_fmap foldl fst snd].
  assert (∃ fields serial,
    message_fields m ∅ = inr fields ∧ fields !! "serial" = Some serial)
    as (fields & serial & Hf & Hs).
  { unfold Twilio.message_item in Hm.
    destruct (message_fields m ∅) as [|fields]; [done|].
    destruct (fields !! "serial") as [serial|] eqn:Hs; [|done].
    by exists fields, serial. }
  destruct (handlemsg_message_item _ _ _ _ _ st Hf Hs Hm) as [Hn Hh].
  rewrite Hf, Hs, Hn, Hh. by apply IH.
Qed.

Lemma inqueue_foldl items : ∀ st,
  inqueue (foldl put_inqueue st items) = inqueue st ++ items.
Proof.
  induction items as [|item items IH]; intros st; cbn [foldl].
  - by rewrite app_nil_r.
  - rewrite IH. cbn. by rewrite <- app_assoc.
Qed.

(** X6. A reply all of whose messages are well formed puts one item in
    the queue for each message, in the order of the reply, and gives the
    highest of their serial numbers, -1 for a reply without message.  A
    message is well formed when every tag of it holds one string, its
    serial number is one that [int] reads, and, unless it is flagged as
    an error, it has a reception time that [strptime] rejects or that
    [maketimelocal] can convert. *)
Theorem handlereply_in_order (st : feed) (replyxml : reply)
    (l : list (Z * feeditem)) :
  mapM message_item replyxml = Some l →
  ∃ st',
    handlereply st replyxml = Ok (foldl Z.max (-1) l.*1) st' ∧
    inqueue st' = inqueue st ++ l.*2 ∧
    lastserial st' = lastserial st ∧ donequeue st' = donequeue st.
Proof.
  intros Hall%mapM_Some. exists (foldl put_inqueue st l.*2).
  unfold Twilio.handlereply.
  rewrite (handlereply_try_items _ _ _ _ Hall).
  split; [done|]. split; [apply inqueue_foldl|].
  generalize (l.*2). intros items. revert st.
  induction items as [|item items IH]; intros st; [done|].
  cbn [foldl]. by destruct (IH (put_inqueue st item)) as [-> ->].
Qed.

(** A reception time that [maketimelocal] cannot convert ends
    [processmsg] with its [OverflowError]: nothing is queued. *)
Lemma processmsg_overflow st fields rcvtime timestamp :
  fields !! "rcvtime" = Some rcvtime →
  strptime clk rcvtime = Some timestamp →
  ¬ time_ok clk rcvtime →
  processmsg st fields = Fail OverflowError st.
Proof.
  intros Hr Hp Ht. unfold Twilio.processmsg. rewrite Hr, Hp.
  destruct (maketimelocal_time_ok _ _ Hp) as [_ Hov]. by rewrite (Hov Ht).
Qed.

(** *** The queue of done items *)

Lemma put_back_submseteq (q : list feeditem) k item :
  q !! k = Some item → drop (S k) q ++ [item] ⊆+ q.
Proof.
  intros Hk. rewrite <- (take_drop_middle q k item Hk) at 2.
  apply submseteq_inserts_l.
  rewrite (Permutation_app_comm (drop (S k) q) [item]). done.
Qed.

Lemma drop_submseteq (q : list feeditem) n : drop n q ⊆+ q.
Proof. apply sublist_submseteq, sublist_drop. Qed.

(** X7. The queue of done items only ever holds items with a serial
    number, and a poll cycle adds nothing to it.  [itemdone] leaves the
    queue as it is for an item without a serial number, and otherwise
    leaves it as it is or puts the item at its end; the queue a poll
    cycle leaves, however the cycle ends, is made of items with a serial
    number that were in the queue before it, none of them more often than
    before. *)
Theorem donequeue_invariant (st : feed) :
  Forall has_serial (donequeue st) →
  (∀ item,
     Forall has_serial (donequeue (itemdone st item)) ∧
     (donequeue (itemdone st item) = donequeue st ∨
      donequeue (itemdone st item) = donequeue st ++ [item])) ∧
  (∀ item, item_serial item = None → itemdone st item = st) ∧
  (∀ fuel idle out,
     fetchitems fuel srv idle st = Some out →
     Forall has_serial (donequeue (state_of out)) ∧
     donequeue (state_of out) ⊆+ donequeue st).
Proof.
  intros Hq. split_and!.
  - intros item. split; [by apply itemdone_has_serial|].
    unfold itemdone. destruct (item_serial item); [|by left].
    destruct (truthy _); [by right|by left].
  - intros item Hs. unfold itemdone. by rewrite Hs.
  - intros fuel idle out Hrun.
    destruct (fetchitems_frame _ _ _ _ _ _ _ Hrun) as (out' & Htry & _ & _ & ->).
    unfold Twilio.fetchitems_try, markitemsdone in Htry.
    destruct (markitemsdone_from_spec srv (donequeue st) st Hq)
      as (k & st1 & Hst & _ & _ & Hend).
    assert (donequeue st1 ⊆+ donequeue st) as Hsub.
    { destruct Hend as [(_ & _ & _ & -> & _)|
                        (item & _ & e & Hk & _ & _ & _ & He)].
      - apply submseteq_nil_l.
      - destruct e; try (destruct He as (_ & -> & _); apply drop_submseteq).
        destruct He as (_ & -> & _). by apply put_back_submseteq. }
    assert (Forall has_serial (donequeue st1)) as Hq1.
    { apply Forall_forall. intros item Hin.
      eapply (proj1 (Forall_forall _ _) Hq).
      by eapply elem_of_submseteq. }
    destruct (markitemsdone_from srv (donequeue st) st) as [[] st2|e st2];
      cbn in Hst; subst st2.
    + apply fetch_loop_sent in Htry as (_ & -> & _). by destruct idle.
    + by injection Htry as <-.
    + by injection Htry as <-.
Qed.

(** X8. With a server that answers every request, [markitemsdone]
    acknowledges every done item once, in the order of the queue, by a
    request whose command is [printed] and whose values [v1] and [v2]
    both are the serial number of the item; it empties the queue, reports
    nothing and returns [True]. *)
Theorem markitemsdone_all_acknowledged (st : feed) :
  responsive srv →
  Forall has_serial (donequeue st) →
  ∃ st' serials,
    Forall2 (λ item serial, item_serial item = Some serial)
      (donequeue st) serials ∧
    markitemsdone srv st = Ok true st' ∧
    sent st' =
      sent st ++
      ((λ serial, Request "printed" (Some (VStr serial)) (Some (VStr serial)))
         <$> serials) ∧
    donequeue st' = [] ∧ inqueue st' = inqueue st ∧
    lastserial st' = lastserial st.
Proof.
  intros Hup Hq. unfold markitemsdone.
  destruct (markitemsdone_from_spec srv (donequeue st) st Hq)
    as (k & st' & _ & Hl & _ & Hend).
  destruct Hend as [(_ & Hok & Hsent & Hdq & Hin)|
                    (item & serial & e & _ & _ & Herr & _)].
  - exists st', (omap item_serial (donequeue st)). split_and!; try done.
    clear -Hq. induction Hq as [|item q (serial & Hs & _) _ IH]; cbn.
    + constructor.
    + rewrite Hs. cbn. by constructor.
  - destruct (Hup (sent st ++ printed_queries (take k (donequeue st)))
                (printed_query serial)) as [replyxml Hr].
    by rewrite Hr in Herr.
Qed.

(** *** The cursor *)

(** X9. The cursor never goes back in a cycle in which the feed is not
    idle, and is never below -1 once it was not. *)
Theorem cursor_never_goes_back (fuel : nat) (idle : bool) (st : feed)
    (out : result feed ()) :
  fetchitems fuel srv idle st = Some out →
  (idle = false → lastserial st ≤ lastserial (state_of out)) ∧
  (-1 ≤ lastserial st → -1 ≤ lastserial (state_of out)).
Proof.
  intros Hrun. split; [|intros Hst; by eapply fetchitems_cursor_bound].
  intros ->.
  destruct (fetchitems_frame _ _ _ _ _ _ _ Hrun) as (out' & Htry & -> & _).
  destruct (markitemsdone_from_sent srv (donequeue st) st) as (Hl & _).
  fold (markitemsdone srv st) in Hl.
  unfold Twilio.fetchitems_try in Htry.
  destruct (markitemsdone srv st) as [[] st1|e st1]; cbn in Hl;
    [|injection Htry as <-; cbn; lia..].
  apply fetch_loop_sent in Htry as (Hle & _). lia.
Qed.

(** X10. A network error on the first poll of a cycle does not come out
    of [fetchitems]: the cycle ends normally with one error item that
    holds the text of the error, the same text being logged as a warning,
    and the cursor is the one before the cycle. *)
Theorem poll_network_error (fuel : nat) (st st0 : feed) (message : string) :
  markitemsdone srv st = Ok true st0 →
  srv (sent st0) (getnext_request (lastserial st)) = NetError message →
  ∃ st',
    fetchitems (S fuel) srv false st = Some (Ok () st') ∧
    lastserial st' = lastserial st ∧
    inqueue st' =
      inqueue st0 ++
      [ErrorItem (Some (("Input or output error" +:+
         (if (0 <? String.length message)%nat
          then ". (" +:+ message +:+ ")" else "")) +:+ "."))] ∧
    last (warnings st') =
      Some (("Input or output error" +:+
         (if (0 <? String.length message)%nat
          then ". (" +:+ message +:+ ")" else "")) +:+ ".").
Proof.
  intros Hd Hsrv.
  destruct (markitemsdone_from_sent srv (donequeue st) st) as (Hl0 & _).
  fold (markitemsdone srv st) in Hl0. rewrite Hd in Hl0. cbn in Hl0.
  unfold Twilio.fetchitems, Twilio.fetchitems_try. rewrite Hd.
  cbn [Twilio.fetch_loop]. unfold doservercmd.
  rewrite Hl0. fold (getnext_request (lastserial st)). rewrite Hsrv.
  cbn [raised]. unfold fetcherror. eexists. split; [reflexivity|].
  cbn. rewrite last_snoc.
  by destruct (String.length message).
Qed.

(** X11. The loop of [fetchitems] ends: when no reply of the server
    takes the cursor above [top], the loop ends within as many polls as
    there are serial numbers from the cursor to [top], and one more. *)
Theorem fetch_loop_terminates (top : Z) (k : nat) : ∀ st : feed,
  serials_below py_int clk srv top →
  top - lastserial st ≤ Z.of_nat k →
  ∃ out, fetch_loop (S k) srv st = Some out.
Proof.
  induction k as [|k IH]; intros st Htop Hk.
  - cbn [Twilio.fetch_loop]. unfold doservercmd.
    destruct (raised (srv _ _)) as [e|replyxml] eqn:Hsrv; [by eexists|].
    apply raised_inr in Hsrv.
    destruct (handlereply _ replyxml) as [n st1|e st1] eqn:Hr; [|by eexists].
    pose proof (Htop _ _ _ _ _ _ Hsrv Hr) as Hn.
    apply handlereply_frame in Hr as (Hl & _). cbn in Hl.
    destruct (negb (n =? 0) && (lastserial st1 <? n)) eqn:Hc; [|by eexists].
    apply andb_prop in Hc as [_ Hlt%Z.ltb_lt]. lia.
  - remember (S k) as k'. cbn [Twilio.fetch_loop]. unfold doservercmd.
    destruct (raised (srv _ _)) as [e|replyxml] eqn:Hsrv; [by eexists|].
    apply raised_inr in Hsrv.
    destruct (handlereply _ replyxml) as [n st1|e st1] eqn:Hr; [|by eexists].
    pose proof (Htop _ _ _ _ _ _ Hsrv Hr) as Hn.
    apply handlereply_frame in Hr as (Hl & _). cbn in Hl.
    destruct (negb (n =? 0) && (lastserial st1 <? n)) eqn:Hc; [|by eexists].
    apply andb_prop in Hc as [_ Hlt%Z.ltb_lt]. subst k'.
    apply IH; [done|]. cbn. lia.
Qed.

End TwilioMore.

(** ** The SMS feed: the functions that format *)

Section TwilioFormat.

Import Twilio.

(** X12. [expandplaceabbrev] adds no field and removes none, leaves
    every other field as it is, and puts the place of the table in the
    field when the field holds an abbreviation of the table. *)
Theorem expandplaceabbrev_keeps_fields (fields : gmap string string)
    (fieldname : string) (placetable : gmap string string) :
  dom (expandplaceabbrev fields fieldname placetable) = dom fields ∧
  (∀ k, k ≠ fieldname →
     expandplaceabbrev fields fieldname placetable !! k = fields !! k) ∧
  expandplaceabbrev fields fieldname placetable !! fieldname
  = (λ abbrev, default abbrev (placetable !! abbrev)) <$> fields !! fieldname.
Proof.
  unfold expandplaceabbrev.
  destruct (fields !! fieldname) as [abbrev|] eqn:Hf; [|by rewrite Hf].
  cbn. destruct (placetable !! abbrev) as [place|]; cbn; [|done].
  split_and!.
  - by apply dom_insert_lookup_L.
  - intros k Hk. by rewrite lookup_insert_ne.
  - by rewrite lookup_insert_eq.
Qed.

(** *** Telephone numbers *)

Lemma list_ascii_app (a b : string) :
  list_ascii_of_string (a +:+ b)
  = list_ascii_of_string a ++ list_ascii_of_string b.
Proof.
  induction a as [|x a IH]; [done|].
  change (x :: list_ascii_of_string (a +:+ b)
          = x :: (list_ascii_of_string a ++ list_ascii_of_string b)).
  by rewrite IH.
Qed.

Lemma digits_app (a b : string) : digits (a +:+ b) = digits a ++ digits b.
Proof. unfold digits. by rewrite list_ascii_app, filter_app. Qed.

Lemma substring_all (s : string) : ∀ n,
  (String.length s ≤ n)%nat → substring 0 n s = s.
Proof.
  induction s as [|x s IH]; intros [|n] Hn; cbn in *; try done; try lia.
  rewrite IH; [done|lia].
Qed.

(** X13. [formatphonenumber] never gives an empty text and keeps the
    digits of the number and their order: all of them, or, for a number
    of twelve characters that begins with +1, the ten that follow. *)
Theorem formatphonenumber_digits (s : option string) :
  formatphonenumber s ≠ "" ∧
  ∀ number, s = Some number → number ≠ "" →
    digits (formatphonenumber s)
    = if bool_decide (String.length number = 12%nat) && String.prefix "+1" number
      then digits (substring 2 10 number)
      else digits number.
Proof.
  split.
  - unfold formatphonenumber. destruct s as [number|]; [|done].
    case_bool_decide; [done|].
    destruct (_ && _); [done|]. destruct (String.prefix "+" number); done.
  - intros number -> Hne. unfold formatphonenumber.
    rewrite bool_decide_eq_false_2 by done.
    destruct (bool_decide (String.length number = 12%nat)
              && String.prefix "+1" number) eqn:HUS.
    + apply andb_prop in HUS as [Hlen%bool_decide_eq_true _].
      do 12 (destruct number as [|? number]; [done|]).
      destruct number; [|done].
      rewrite !digits_app.
      change (substring 2 10 ?x)
        with (substring 2 3 x +:+ substring 5 3 x +:+ substring 8 4 x).
      rewrite !digits_app. reflexivity.
    + destruct (String.prefix "+" number) eqn:Hplus; [|done].
      destruct number as [|c number]; [done|].
      cbn [String.prefix] in Hplus.
      destruct (ascii_dec "+" c) as [<-|]; [|done].
      rewrite digits_app.
      change (substring 1 ?n (String ?x ?y)) with (substring 0 n y).
      rewrite substring_all by (cbn; lia). reflexivity.
Qed.

(** *** HTML escapes *)

Lemma sub_from_none (pat rep : list ascii) l :
  (∀ l1 l2, l ≠ l1 ++ pat ++ l2) →
  sub_from pat rep 0 l = l.
Proof.
  induction l as [|c l IH]; intros Hno; [done|].
  cbn [sub_from]. rewrite bool_decide_eq_false_2.
  - f_equal. apply IH. intros l1 l2 ->. by apply (Hno (c :: l1) l2).
  - intros [l2 Hp]. by apply (Hno [] l2).
Qed.

Lemma sub_from_skip (pat rep : list ascii) k : ∀ l,
  sub_from pat rep (length k) (k ++ l) = sub_from pat rep 0 l.
Proof.
  induction k as [|c k IH]; intros l; cbn [length app].
  - done.
  - cbn [sub_from]. apply IH.
Qed.

Lemma sub_from_first (pat rep : list ascii) c pat' : ∀ l1 l2,
  pat = c :: pat' → c ∉ l1 →
  sub_from pat rep 0 (l1 ++ pat ++ l2)
  = l1 ++ rep ++ sub_from pat rep 0 l2.
Proof.
  intros l1 l2 -> Hc. induction l1 as [|x l1 IH].
  - cbn [app sub_from]. rewrite bool_decide_eq_true_2 by by eexists.
    f_equal.
    replace (length (c :: pat') - 1)%nat with (length pat') by (cbn; lia).
    apply sub_from_skip.
  - apply not_elem_of_cons in Hc as [Hx Hc].
    cbn [app sub_from]. rewrite bool_decide_eq_false_2.
    + f_equal. by apply IH.
    + intros [k Hk]. by injection Hk as ->.
Qed.

(** X14. [cleanhtml] rewrites [&mdash;] and nothing else: a text in
    which [&mdash;] does not occur comes back as it is, whatever other
    escapes it holds; and when the text before an [&mdash;] holds no
    ampersand, that text is kept, a hyphen takes the place of the
    escape, and the rest is cleaned in the same way. *)
Theorem cleanhtml_only_mdash (s : string) :
  ((∀ l1 l2, list_ascii_of_string s
             ≠ l1 ++ list_ascii_of_string "&mdash;" ++ l2) →
   cleanhtml s = s) ∧
  (∀ s1 s2, s = s1 +:+ "&mdash;" +:+ s2 →
     "&"%char ∉ list_ascii_of_string s1 →
     cleanhtml s = s1 +:+ "-" +:+ cleanhtml s2).
Proof.
  unfold cleanhtml, sub. split.
  - intros Hno. rewrite sub_from_none by done.
    apply string_of_list_ascii_of_string.
  - intros s1 s2 -> Hamp. rewrite !list_ascii_app.
    erewrite sub_from_first; [|reflexivity|done].
    rewrite <- (string_of_list_ascii_of_string (s1 +:+ _)).
    by rewrite !list_ascii_app, !list_ascii_of_string_of_list_ascii.
Qed.

(** *** Sending *)

(** A call that returns raises nothing. *)
Ltac returns := intros ?; split; [done|by intros [? _]].

(** X15. [sendSMS] begins by writing the line Sending SMS to, the number,
    a colon and the text to the logger at level [info], on every call,
    and writes nothing else at that level.  It reports success, by
    returning [None], exactly when [twiliopost] returned without a status
    and the first [status] tag of the reply reads queued, in small or
    capital letters, with or without space around it; then the feed is as
    it was, no warning being logged.  When it returns the text of a
    problem, it has logged that text as a warning.  It raises exactly
    what [twiliopost] raised when that is no [IOError], and then too the
    feed is as it was. *)
Theorem sendSMS_queued_iff (st : feed) (info : list string)
    (number text : string) (tried : exn + posted) :
  let r := sendSMS st info number text tried in
  r.2 = info ++ ["Sending SMS to " +:+ number +:+ ": " +:+ text] ∧
  (r.1.1 = inr None ↔
     ∃ status smsstatus,
       tried = inr (status, Some (Some (Some smsstatus))) ∧
       truthy (VInt <$> status) = false ∧
       smsstatus ≠ "" ∧ lower (strip smsstatus) = "queued") ∧
  (r.1.1 = inr None → r.1.2 = st) ∧
  (∀ msgtxt, r.1.1 = inr (Some msgtxt) →
     warnings r.1.2 = warnings st ++ [msgtxt] ∧
     inqueue r.1.2 = inqueue st) ∧
  (∀ e, r.1.1 = inl e ↔ tried = inl e ∧ ∀ message, e ≠ IOError message) ∧
  (∀ e, r.1.1 = inl e → r.1.2 = st).
Proof.
  unfold sendSMS, fetcherror.
  destruct tried as [e|[status tree]].
  { destruct e; cbn;
      (split_and!;
       [done
       |split; [done|by intros (? & ? & ? & _)]
       |done
       |by intros ? [= <-]
       |intros e'; split;
        [intros [= <-]; by split
        |try (by intros [[= <-] _]);
         intros [[= <-] Hne]; try done; by destruct (Hne msg)]
       |done]). }
  cbn [fst snd].
  destruct (truthy (VInt <$> status)) eqn:Hstatus.
  { cbn. split_and!; [done| |done|by intros ? [= <-]|returns|done].
    split; [done|]. intros (? & ? & [= <- _] & ? & _). congruence. }
  destruct tree as [[[smsstatus|]|]|];
    try (cbn; split_and!;
         [done
         |split; [done|by intros (? & ? & [=] & _)]
         |done
         |by intros ? [= <-]
         |returns
         |done]).
  case_bool_decide as Hne; [case_bool_decide as Hq|]; cbn.
  - split_and!; [done| |done|done|returns|done].
    split; [|done]. intros _. by exists status, smsstatus.
  - split_and!; [done| |done|by intros ? [= <-]|returns|done].
    split; [done|]. intros (? & ? & [= <- <-] & _ & _ & ?). done.
  - split_and!; [done| |done|by intros ? [= <-]|returns|done].
    split; [done|]. intros (? & ? & [= <- <-] & _ & ? & _). done.
Qed.

End TwilioFormat.

(** *** Examples *)

Section TwilioMoreExamples.

Import Twilio.

(** Witness of [handlereply_in_order]: a reply with the messages of
    serial numbers 5 and 3. *)
Lemma handlereply_in_order_witness :
  ∃ l,
    mapM (message_item dec_int pacific) [good_message "5"; good_message "3"] = Some l ∧
    l.*1 = [5; 3] ∧
    ∃ st',
      handlereply dec_int pacific init [good_message "5"; good_message "3"]
      = Ok (foldl Z.max (-1) l.*1) st' ∧
      inqueue st' = inqueue init ++ l.*2 ∧
      lastserial st' = lastserial init ∧ donequeue st' = donequeue init.
Proof.
  eexists. split; [reflexivity|]. split; [reflexivity|].
  apply (handlereply_in_order dec_int pacific init). reflexivity.
Defined.

(** A message whose reception time is the last second that [datetime]
    has is queued on Pacific time; east of Greenwich its local time is no
    date, and the [OverflowError] of [maketimelocal] comes out of
    [fetchitems], the message not being queued. *)
Example late_message_overflow :
  (∃ st', handlereply dec_int pacific init [late_message] = Ok 9 st' ∧
          length (inqueue st') = 1%nat) ∧
  mapM (message_item dec_int eastern) [late_message] = None ∧
  ∃ st',
    fetchitems dec_int eastern 1 (srv_const [late_message]) false init
    = Some (Fail OverflowError st') ∧
    inqueue st' = [].
Proof.
  split; [eexists; split; reflexivity|]. split; [reflexivity|].
  eexists. split; reflexivity.
Qed.

(** Witness of [donequeue_invariant]: three items were printed. *)
Lemma donequeue_invariant_witness :
  Forall has_serial (donequeue done345) ∧
  (∀ item,
     Forall has_serial (donequeue (itemdone done345 item)) ∧
     (donequeue (itemdone done345 item) = donequeue done345 ∨
      donequeue (itemdone done345 item) = donequeue done345 ++ [item])) ∧
  (∀ item, item_serial item = None → itemdone done345 item = done345) ∧
  (∀ fuel idle out,
     fetchitems dec_int pacific fuel srv_once idle done345 = Some out →
     Forall has_serial (donequeue (state_of out)) ∧
     donequeue (state_of out) ⊆+ donequeue done345).
Proof.
  split; [exact done345_has_serial|].
  exact (donequeue_invariant dec_int pacific srv_once done345 done345_has_serial).
Defined.

Lemma srv_const_responsive r : responsive (srv_const r).
Proof. intros sent req. by exists r. Qed.

(** Witness of [markitemsdone_all_acknowledged]: three items and a server
    that is up. *)
Lemma markitemsdone_all_acknowledged_witness :
  responsive (srv_const []) ∧
  Forall has_serial (donequeue done345) ∧
  ∃ st' serials,
    Forall2 (λ item serial, item_serial item = Some serial)
      (donequeue done345) serials ∧
    markitemsdone (srv_const []) done345 = Ok true st' ∧
    sent st' =
      sent done345 ++
      ((λ serial, Request "printed" (Some (VStr serial)) (Some (VStr serial)))
         <$> serials) ∧
    donequeue st' = [] ∧ inqueue st' = inqueue done345 ∧
    lastserial st' = lastserial done345.
Proof.
  split; [apply srv_const_responsive|]. split; [exact done345_has_serial|].
  exact (markitemsdone_all_acknowledged (srv_const []) done345
           (srv_const_responsive []) done345_has_serial).
Defined.

(** Witness of [cursor_never_goes_back]: a cycle that reads the message
    of serial number 5. *)
Lemma cursor_never_goes_back_witness :
  ∃ out,
    fetchitems dec_int pacific 2 srv_then_bad false init = Some out ∧
    lastserial (state_of out) = 5 ∧
    (false = false → lastserial init ≤ lastserial (state_of out)) ∧
    (-1 ≤ lastserial init → -1 ≤ lastserial (state_of out)).
Proof.
  eexists. split; [reflexivity|]. split; [reflexivity|].
  apply (cursor_never_goes_back dec_int pacific srv_then_bad 2 false init).
  reflexivity.
Defined.

(** Witness of [poll_network_error]: nothing to acknowledge and the
    network down. *)
Lemma poll_network_error_witness :
  ∃ st',
    fetchitems dec_int pacific 1 srv_down false read7 = Some (Ok () st') ∧
    lastserial st' = lastserial read7 ∧
    inqueue st' =
      inqueue (set_donequeue read7 []) ++
      [ErrorItem (Some (("Input or output error" +:+
         (if (0 <? String.length "timed out")%nat
          then ". (" +:+ "timed out" +:+ ")" else "")) +:+ "."))] ∧
    last (warnings st') =
      Some (("Input or output error" +:+
         (if (0 <? String.length "timed out")%nat
          then ". (" +:+ "timed out" +:+ ")" else "")) +:+ ".").
Proof.
  apply (poll_network_error dec_int pacific srv_down 0 read7 (set_donequeue read7 [])
           "timed out"); reflexivity.
Defined.

Lemma srv_then_bad_below : serials_below dec_int pacific srv_then_bad 5.
Proof.
  intros sent r replyxml st n st' Hsrv Hr. unfold srv_then_bad in Hsrv.
  case_bool_decide; injection Hsrv as <-;
    vm_compute in Hr; injection Hr as <- _; done.
Qed.

(** Witness of [fetch_loop_terminates]: the server whose only message has
    serial number 5, polled from the beginning. *)
Lemma fetch_loop_terminates_witness :
  serials_below dec_int pacific srv_then_bad 5 ∧
  5 - lastserial init ≤ Z.of_nat 6 ∧
  ∃ out, fetch_loop dec_int pacific 7 srv_then_bad init = Some out.
Proof.
  split; [exact srv_then_bad_below|]. split; [done|].
  exact (fetch_loop_terminates dec_int pacific srv_then_bad 5 6 init
           srv_then_bad_below ltac:(done)).
Defined.

Example formatphonenumber_samples :
  formatphonenumber (Some "+14155551212") = "(415) 555-1212" ∧
  formatphonenumber (Some "+442071838750") = "INTL 442071838750" ∧
  formatphonenumber (Some "5551212") = "5551212" ∧
  formatphonenumber (Some "") = "(UNKNOWN)" ∧
  formatphonenumber None = "(UNKNOWN)".
Proof. by split_and!. Qed.

Example cleanhtml_samples :
  cleanhtml "FISH &amp; CHIPS&mdash;TODAY &#163;5" = "FISH &amp; CHIPS-TODAY &#163;5" ∧
  cleanhtml "A&mdash;B&mdash;C" = "A-B-C".
Proof. by split_and!. Qed.

End TwilioMoreExamples.

(** ** The weather parser: trees, places, layouts *)

Section NWSTrees.

Import NWS.

Lemma head_filter_Some {A} (P : A → Prop) `{∀ x, Decision (P x)} l x :
  head (filter P l) = Some x → P x ∧ x ∈ l.
Proof.
  induction l as [|y l IH]; [done|].
  destruct (decide (P y)) as [Hy|Hy].
  - rewrite filter_cons_True by done. intros [= ->].
    split; [done|apply list_elem_of_here].
  - rewrite filter_cons_False by done. intros [HP Hin]%IH.
    split; [done|by apply list_elem_of_further].
Qed.

Lemma head_filter_first {A} (P : A → Prop) `{∀ x, Decision (P x)} l x :
  head (filter P l) = Some x →
  P x ∧ ∃ before after,
    l = before ++ x :: after ∧ ∀ y, y ∈ before → ¬ P y.
Proof.
  induction l as [|y l IH]; [done|].
  destruct (decide (P y)) as [Hy|Hy].
  - rewrite filter_cons_True by done. intros [= ->].
    split; [done|]. exists [], l. split; [done|].
    by intros y Hin%elem_of_nil.
  - rewrite filter_cons_False by done.
    intros (HP & before & after & -> & Hbefore)%IH.
    split; [done|]. exists (y :: before), after. split; [done|].
    intros z [->|Hz]%elem_of_cons; [done|by apply Hbefore].
Qed.

Lemma head_filter_None {A} (P : A → Prop) `{∀ x, Decision (P x)} l :
  head (filter P l) = None ↔ ∀ x, x ∈ l → ¬ P x.
Proof.
  induction l as [|y l IH].
  - split; [|done]. by intros _ x Hx%elem_of_nil.
  - destruct (decide (P y)) as [Hy|Hy].
    + rewrite filter_cons_True by done. split; [done|].
      intros Hno. destruct (Hno y); [apply list_elem_of_here|done].
    + rewrite filter_cons_False by done. rewrite IH. split.
      * intros Hno x [->|Hx]%elem_of_cons; [done|by apply Hno].
      * intros Hno x Hx. by apply Hno, list_elem_of_further.
Qed.

Lemma descendants_self tree : tree ∈ descendants tree.
Proof. destruct tree. cbn [descendants]. apply list_elem_of_here. Qed.

Lemma descendants_children tree child x :
  child ∈ children tree → x ∈ descendants child → x ∈ descendants tree.
Proof.
  destruct tree as [t a txt items]. cbn [children descendants].
  intros Hin Hx. apply list_elem_of_further.
  induction items as [|c items IH]; [by apply elem_of_nil in Hin|].
  apply elem_of_cons in Hin as [->|Hin]; apply elem_of_app;
    [by left|right; by apply IH].
Qed.

Lemma find_Some tree key item :
  find tree key = Some item → tag item = key ∧ item ∈ children tree.
Proof. unfold find. apply (head_filter_Some (λ item, tag item = key)). Qed.

(** What [gettextitem] raises is handled by its callers. *)
Lemma gettextitem_raises tree key e :
  gettextitem tree key = inl e → is_Some (caught e).
Proof.
  unfold gettextitem. destruct (find tree key) as [item|]; [|by intros [= <-]].
  destruct (text item); [done|by intros [= <-]].
Qed.

(** X16. For keys that are tag names, what [_find] returns for a path of
    keys is below the tree, at any depth, and has the last key of the
    path as its tag; for a path of one key it is a child of the tree. *)
Theorem _find_descendant (keys : list string) : ∀ tree key item,
  Forall tagname (key :: keys) →
  _find tree key keys = inr item →
  tag item = default key (last keys) ∧
  item ∈ descendants tree ∧
  (keys = [] → item ∈ children tree).
Proof.
  induction keys as [|k keys IH]; intros tree key item Hkeys; cbn [_find].
  - destruct (find tree key) as [child|] eqn:Hf; [|done]. intros [= ->].
    apply find_Some in Hf as [Htag Hin]. split_and!; [done| |done].
    eapply descendants_children; [done|apply descendants_self].
  - apply Forall_cons in Hkeys as [_ Hkeys].
    destruct (find tree key) as [child|] eqn:Hf; [|done].
    intros (Htag & Hin & _)%(IH _ _ _ Hkeys).
    apply find_Some in Hf as [_ Hchild].
    split_and!; [|by eapply descendants_children|done].
    rewrite Htag, last_cons. by destruct (last keys).
Qed.

(** X17. [findfirst] returns the first element of the tree, in document
    order and the tree itself included, that has the tag asked for, any
    element having it when the key is the star: the tree itself when it
    has that tag or the key is the star.  It returns [None] exactly when
    the key is not the star and the tag occurs nowhere in the tree. *)
Theorem findfirst_spec (tree : element) (key : string) :
  (∀ item, findfirst tree key = Some item →
     (key = "*" ∨ tag item = key) ∧
     ∃ before after,
       descendants tree = before ++ item :: after ∧
       ∀ other, other ∈ before → key ≠ "*" ∧ tag other ≠ key) ∧
  (key = "*" ∨ tag tree = key → findfirst tree key = Some tree) ∧
  (findfirst tree key = None ↔
     key ≠ "*" ∧ ∀ item, item ∈ descendants tree → tag item ≠ key).
Proof.
  unfold findfirst, iter. case_bool_decide as Hstar; split_and!.
  - destruct tree as [t a txt items]. cbn [descendants head].
    intros item [= <-]. split; [by left|]. exists []. eexists.
    split; [done|]. by intros other Hin%elem_of_nil.
  - intros _. by destruct tree.
  - split; [by destruct tree|]. by intros [? _].
  - intros item Hf.
    destruct (head_filter_first (λ item, tag item = key) _ _ Hf)
      as (Htag & before & after & Hl & Hbefore).
    split; [by right|]. exists before, after. split; [done|].
    intros other Hin. split; [done|by apply Hbefore].
  - intros [?|Htag]; [done|]. destruct tree as [t a txt items].
    cbn [descendants]. by rewrite filter_cons_True by done.
  - rewrite (head_filter_None (λ item, tag item = key)). naive_solver.
Qed.

(** X18. For a key that is a tag name, [gettextitem] gives the text of
    the first child of that tag, without the space around it, so that
    stripping it again changes nothing; when there is no such child, or
    the first one has no text, it raises a [RuntimeError], the exception
    its callers handle. *)
Theorem gettextitem_spec (tree : element) (key : string) :
  tagname key →
  (∀ s, gettextitem tree key = inr s →
     strip s = s ∧
     ∃ before item after t,
       children tree = before ++ item :: after ∧
       (∀ other, other ∈ before → tag other ≠ key) ∧
       tag item = key ∧ text item = Some t ∧ s = strip t) ∧
  (∀ e, gettextitem tree key = inl e →
     (∃ message, e = RuntimeError message) ∧
     is_Some (caught e) ∧
     ((∀ item, item ∈ children tree → tag item ≠ key) ∨
      ∃ before item after,
        children tree = before ++ item :: after ∧
        (∀ other, other ∈ before → tag other ≠ key) ∧
        tag item = key ∧ text item = None)).
Proof.
  intros _.
  unfold gettextitem, find.
  destruct (head (filter _ (children tree))) as [item|] eqn:Hf.
  - apply (head_filter_first (λ item, tag item = key)) in Hf
      as (Htag & before & after & Hl & Hbefore).
    destruct (text item) as [t|] eqn:Ht.
    + split; [|done]. intros s [= <-]. split; [apply strip_idemp|].
      by exists before, item, after, t.
    + split; [done|]. intros e [= <-].
      split; [by eexists|]. split; [by eexists|].
      right. by exists before, item, after.
  - rewrite (head_filter_None (λ item, tag item = key)) in Hf.
    split; [done|]. intros e [= <-].
    split; [by eexists|]. split; [by eexists|]. by left.
Qed.

(** *** Places *)

Lemma feature_triple_Some feature featurename lat lng :
  feature_triple feature = Some (featurename, lat, lng) →
  gettextitem feature "FEATURE_NAME" = inr featurename ∧
  gettextitem feature "FEAT_LATITUDE_NMBR" = inr lat ∧
  gettextitem feature "FEAT_LONGITUDE_NMBR" = inr lng.
Proof.
  unfold feature_triple.
  destruct (gettextitem feature "FEATURE_NAME"); [done|].
  destruct (gettextitem feature "FEAT_LATITUDE_NMBR"); [done|].
  destruct (gettextitem feature "FEAT_LONGITUDE_NMBR"); [done|].
  by intros [= -> -> ->].
Qed.

Lemma bestfeature_raises city features : ∀ best e,
  bestfeature city features best = inl e → is_Some (caught e).
Proof.
  induction features as [|feature features IH]; intros best e;
    cbn [bestfeature]; [done|].
  unfold mbind, exn_bind.
  destruct (gettextitem feature "FEATURE_NAME") as [e1|name] eqn:H1.
  { intros [= ->]. by apply gettextitem_raises in H1. }
  case_bool_decide; [|by apply IH].
  destruct (gettextitem feature "FEAT_LATITUDE_NMBR") as [e1|lat] eqn:H2.
  { intros [= ->]. by apply gettextitem_raises in H2. }
  destruct (gettextitem feature "FEAT_LONGITUDE_NMBR") as [e1|lng] eqn:H3.
  { intros [= ->]. by apply gettextitem_raises in H3. }
  by apply IH.
Qed.

Lemma bestfeature_chosen city features : ∀ best,
  Forall (λ feature, is_Some (feature_triple feature)) features →
  bestfeature city features best
  = inr (match last (filter (named city) features) with
         | Some feature => feature_triple feature
         | None =>
             match best with
             | Some b => Some b
             | None => head features ≫= feature_triple
             end
         end).
Proof.
  induction features as [|feature features IH]; intros best Hall.
  { by destruct best. }
  apply Forall_cons in Hall as [[[[name lat] lng] Ht] Hall].
  pose proof Ht as (H1 & H2 & H3)%feature_triple_Some.
  cbn [bestfeature]. unfold mbind at 1, exn_bind at 1. rewrite H1.
  destruct (decide (named city feature)) as [Hn|Hn].
  - rewrite filter_cons_True by done.
    rewrite bool_decide_eq_true_2.
    2:{ right. destruct Hn as (name' & Hname & ?). congruence. }
    unfold mbind, exn_bind. rewrite H2, H3, IH by done.
    rewrite last_cons. destruct (last _); by rewrite ?Ht.
  - rewrite filter_cons_False by done.
    destruct best as [b|].
    + rewrite bool_decide_eq_false_2.
      2:{ intros [?|Hu]; [done|]. apply Hn. by exists name. }
      by rewrite IH.
    + rewrite bool_decide_eq_true_2 by by left.
      unfold mbind, exn_bind. rewrite H2, H3, IH by done.
      cbn. rewrite Ht. by destruct (last _).
Qed.

(** X19. [getplacelatlong] raises nothing once the reply is a tree:
    every failure comes back as a message, without a place.  When every
    feature of the reply has its three items, the place it returns is the
    last feature that has the name of the city, capitals and small
    letters being the same, and the first feature when none has; without
    a feature the city is not found. *)
Theorem getplacelatlong_best (CODE_STATE : gmap string string)
    (city state : string) (tree : element) :
  (∃ msg bestfeaturename lat lng,
     getplacelatlong CODE_STATE city state (inr tree)
     = inr (msg, bestfeaturename, lat, lng) ∧
     (is_Some msg ∧ bestfeaturename = None ∧ lat = None ∧ lng = None ∨
      msg = None ∧ is_Some bestfeaturename ∧ is_Some lat ∧ is_Some lng)) ∧
  (Forall (λ feature, is_Some (feature_triple feature)) (iter tree "USGS") →
   getplacelatlong CODE_STATE city state (inr tree)
   = inr match
           match last (filter (named city) (iter tree "USGS")) with
           | Some feature => feature_triple feature
           | None => head (iter tree "USGS") ≫= feature_triple
           end
         with
         | Some (bestfeaturename, lat, lng) =>
             (None, Some bestfeaturename, Some lat, Some lng)
         | None =>
             (Some ("Unable to get location of " +:+ city +:+ ", " +:+
                    default state (CODE_STATE !! state) +:+ ": " +:+
                    "City not found"), None, None, None)
         end).
Proof.
  unfold getplacelatlong. split.
  - unfold mbind at 1, exn_bind at 1. unfold mbind, exn_bind.
    destruct (bestfeature city (iter tree "USGS") None)
      as [e|[[[name lat] lng]|]] eqn:Hb.
    + apply bestfeature_raises in Hb as [message ->].
      eexists _, _, _, _. split; [done|]. left. by split_and!.
    + eexists _, _, _, _. split; [done|]. right. by split_and!.
    + eexists _, _, _, _. split; [done|]. left. by split_and!.
  - intros Hall. unfold mbind at 1, exn_bind at 1. unfold mbind, exn_bind.
    rewrite (bestfeature_chosen city _ None Hall).
    by destruct (match last _ with Some _ => _ | None => _ end)
      as [[[name lat] lng]|].
Qed.

End NWSTrees.

(** ** The weather parser: what a parse leaves in the object *)

Section NWSMore.

Import NWS.

Variable datetime : Type.
Variable strptime : string → option datetime.
Variable minus_minutes : datetime → Z → option datetime.
Variable replace_tzinfo : datetime → datetime.
Variable CODE_STATE : gmap string string.

Abbreviation parseisotime :=
  (parseisotime datetime strptime minus_minutes replace_tzinfo).
Abbreviation _parseheader :=
  (_parseheader datetime strptime minus_minutes replace_tzinfo CODE_STATE).
Abbreviation _parsetimeitems :=
  (_parsetimeitems datetime strptime minus_minutes replace_tzinfo).
Abbreviation _parsetimelayouts_loop :=
  (_parsetimelayouts_loop datetime strptime minus_minutes replace_tzinfo).
Abbreviation _parsetimelayouts :=
  (_parsetimelayouts datetime strptime minus_minutes replace_tzinfo).
Abbreviation parse_try :=
  (parse_try datetime strptime minus_minutes replace_tzinfo CODE_STATE).
Abbreviation parse :=
  (parse datetime strptime minus_minutes replace_tzinfo CODE_STATE).

#[local] Existing Instances M_ret M_bind M_throw.

(** *** Time layouts *)

Lemma _parsetimeitems_Some timeitems : ∀ acc l,
  _parsetimeitems timeitems acc = inr (Some l) →
  ∃ l', l = acc ++ l' ∧
    Forall2 (λ timeitem x,
      ∃ s, text timeitem = Some s ∧ strip s ≠ "NA" ∧
           parseisotime (strip s) = inr x.1 ∧
           x.2 = attrib timeitem !! "period-name") timeitems l'.
Proof.
  induction timeitems as [|timeitem timeitems IH]; intros acc l;
    cbn [NWS._parsetimeitems].
  { intros [= <-]. exists []. by rewrite app_nil_r. }
  destruct (text timeitem) as [s|] eqn:Hs; [|done].
  case_bool_decide as HNA; [done|]. unfold mbind, exn_bind.
  destruct (parseisotime (strip s)) as [e|t] eqn:Ht; [done|].
  intros (l' & -> & Hall)%IH.
  exists ((t, attrib timeitem !! "period-name") :: l').
  rewrite <- app_assoc. split; [done|]. constructor; [|done].
  by exists s.
Qed.

Lemma _parsetimeitems_None timeitems : ∀ acc,
  _parsetimeitems timeitems acc = inr None →
  Exists (λ timeitem, ∃ s, text timeitem = Some s ∧ strip s = "NA") timeitems.
Proof.
  induction timeitems as [|timeitem timeitems IH]; intros acc;
    cbn [NWS._parsetimeitems]; [done|].
  destruct (text timeitem) as [s|] eqn:Hs; [|done].
  case_bool_decide as HNA.
  { intros _. apply Exists_cons_hd. by exists s. }
  unfold mbind, exn_bind.
  destruct (parseisotime (strip s)) as [e|t]; [done|].
  intros H%IH. by apply Exists_cons_tl.
Qed.

(** X20. [_parsetimeitems] keeps the order of the time items: the list
    it returns has one pair for each item, the time of the item, as
    [parseisotime] reads it, with the name of its period; it returns
    [None] only when the time of an item is NA. *)
Theorem _parsetimeitems_order (timeitems : list element) :
  (∀ l, _parsetimeitems timeitems [] = inr (Some l) →
     Forall2 (λ timeitem x,
       ∃ s, text timeitem = Some s ∧ strip s ≠ "NA" ∧
            parseisotime (strip s) = inr x.1 ∧
            x.2 = attrib timeitem !! "period-name") timeitems l) ∧
  (_parsetimeitems timeitems [] = inr None →
     Exists (λ timeitem, ∃ s, text timeitem = Some s ∧ strip s = "NA")
       timeitems).
Proof.
  split.
  - intros l H. by apply _parsetimeitems_Some in H as (l' & -> & Hall).
  - apply _parsetimeitems_None.
Qed.

Lemma _parsetimelayouts_loop_nonempty trees : ∀ timelayouts res,
  (∀ key l, timelayouts !! key = Some l → l ≠ [] ∧ strip key = key) →
  _parsetimelayouts_loop trees timelayouts = inr res →
  ∀ key l, res !! key = Some l → l ≠ [] ∧ strip key = key.
Proof.
  induction trees as [|tree trees IH]; intros timelayouts res Hinv;
    cbn [NWS._parsetimelayouts_loop].
  { by intros [= <-]. }
  unfold mbind, exn_bind.
  destruct (_find _ _ _) as [e|keytag]; [done|].
  destruct (text keytag) as [key0|]; [|done].
  destruct (_parsetimeitems _ _) as [e|[[|timeitem timeitems]|]];
    [done|by apply IH| |by apply IH].
  apply IH. intros key l [[<- <-]|[_ Hl]]%lookup_insert_Some.
  - split; [done|apply strip_idemp].
  - by apply Hinv.
Qed.

(** X21. No time layout that [_parsetimelayouts] keeps is empty, and the
    key of each is a key without space around it. *)
Theorem _parsetimelayouts_nonempty (tree : element)
    (timelayouts : gmap string (list (datetime * option string))) :
  _parsetimelayouts tree = inr timelayouts →
  ∀ key l, timelayouts !! key = Some l → l ≠ [] ∧ strip key = key.
Proof.
  unfold NWS._parsetimelayouts.
  apply _parsetimelayouts_loop_nonempty. intros key l. by rewrite lookup_empty.
Qed.

(** *** The steps of a method that returns *)

Lemma bind_Ok {A B} (m : M datetime A) (f : A → M datetime B) st b st' :
  (m ≫= f) st = Ok b st' →
  ∃ a st1, m st = Ok a st1 ∧ f a st1 = Ok b st'.
Proof.
  unfold mbind, M_bind. destruct (m st) as [a st1|e1 st1]; intros H; [|done].
  by exists a, st1.
Qed.

Lemma lift_Ok {A} (x : exn + A) (st : nwsxml datetime) a st' :
  lift datetime x st = Ok a st' → x = inr a ∧ st' = st.
Proof. by destruct x; intros [=]; subst. Qed.

Lemma require_Ok {A} (x : option A) e (st : nwsxml datetime) a st' :
  require datetime x e st = Ok a st' → x = Some a ∧ st' = st.
Proof. by destruct x; intros [=]; subst. Qed.

Lemma modify_Ok f (st : nwsxml datetime) a st' :
  modify datetime f st = Ok a st' → st' = f st.
Proof. by intros [=]. Qed.

Lemma mret_Ok {A} (a b : A) (st st' : nwsxml datetime) :
  (mret a : M datetime A) st = Ok b st' → st' = st.
Proof. by intros [=]. Qed.

Ltac step_Ok :=
  repeat match goal with
    | H : (_ ≫= _) _ = Ok _ _ |- _ =>
        let H1 := fresh "Hstep" in
        apply bind_Ok in H as (? & ? & H1 & H)
    | H : lift _ _ _ = Ok _ _ |- _ => apply lift_Ok in H as [H ->]
    | H : require _ _ _ _ = Ok _ _ |- _ => apply require_Ok in H as [H ->]
    | H : modify _ _ _ = Ok _ _ |- _ => apply modify_Ok in H as ->
    | H : mret _ _ = Ok _ _ |- _ => apply mret_Ok in H as ->
    | H : mthrow _ _ = Ok _ _ |- _ => discriminate H
    | H : (if ?b then _ else _) _ = Ok _ _ |- _ => destruct b eqn:?
    end.

Lemma _parseheader_Ok tree st st' :
  _parseheader tree st = Ok () st' →
  err st' = err st ∧ perioditems st' = perioditems st ∧
  is_Some (creationtime st') ∧ is_Some (location st').
Proof.
  unfold NWS._parseheader. intros H. step_Ok;
    (destruct (find _ "city") as [cityitem|]; step_Ok;
     try (destruct (_ <$> _); step_Ok); cbn; by split_and!).
Qed.

(** *** Forecasts *)

Lemma forecasttexts_loop_length items : ∀ acc l,
  forecasttexts_loop items acc = inr l →
  length l = (length acc + length items)%nat.
Proof.
  induction items as [|item items IH]; intros acc l; cbn.
  { intros [= <-]. lia. }
  destruct (text item); [|done]. intros ->%IH. rewrite length_app. cbn. lia.
Qed.

Lemma _parseforecasts_loop_Ok timelayouts wordedforecasts : ∀ st st',
  _parseforecasts_loop datetime wordedforecasts timelayouts st = Ok () st' →
  err st' = err st ∧ location st' = location st ∧
  creationtime st' = creationtime st ∧
  ∃ added,
    perioditems st' = perioditems st ++ added ∧
    length added
    = sum_list ((λ wordedforecast, length (iter wordedforecast "text"))
                  <$> wordedforecasts).
Proof.
  induction wordedforecasts as [|wordedforecast wordedforecasts IH];
    intros st st'; cbn [NWS._parseforecasts_loop].
  { intros [= <-]. split_and!; [done..|]. exists []. by rewrite app_nil_r. }
  intros H. step_Ok.
  match goal with
  | H : forecasttexts_loop _ _ = inr ?l |- _ =>
      apply forecasttexts_loop_length in H; rename H into Hlen
  end.
  match goal with
  | Hb : bool_decide (_ ≠ _) = false |- _ => apply bool_decide_eq_false in Hb
  end.
  apply IH in H as (-> & -> & -> & added & -> & Hadded).
  split_and!; [done..|]. eexists. cbn [perioditems set_perioditems].
  rewrite <- app_assoc. split; [done|].
  rewrite length_app, length_zip_with, Hadded. cbn in *. lia.
Qed.

(** X22. When [_parseforecasts] returns, it has added to the periods of
    the object one period for each text item of each worded forecast,
    after the periods that were there, and has touched nothing else that
    [asString] reads. *)
Theorem _parseforecasts_adds (tree : element)
    (timelayouts : gmap string (list (datetime * option string)))
    (st st' : nwsxml datetime) :
  _parseforecasts datetime tree timelayouts st = Ok () st' →
  err st' = err st ∧ location st' = location st ∧
  creationtime st' = creationtime st ∧
  ∃ added,
    perioditems st' = perioditems st ++ added ∧
    length added
    = sum_list ((λ wordedforecast, length (iter wordedforecast "text"))
                  <$> iter tree "wordedForecast").
Proof. apply _parseforecasts_loop_Ok. Qed.

(** X23. After a [parse] that returned on an object without error, the
    object either holds no error, and then it has a creation time and a
    location, or holds an error that begins with the words of [parse]. *)
Theorem parse_success_fields (tree : element) (st st' : nwsxml datetime) :
  parse tree st = Ok () st' →
  err st = None →
  (err st' = None →
     parse_try tree st = Ok () st' ∧
     is_Some (creationtime st') ∧ is_Some (location st')) ∧
  (∀ error, err st' = Some error →
     ∃ message,
       error = "Unable to interpret weather data: " +:+ message +:+ ".").
Proof.
  unfold NWS.parse. intros Hp Herr.
  destruct (parse_try tree st) as [[] st1|e st1] eqn:Ht.
  - injection Hp as <-. unfold NWS.parse_try in Ht. step_Ok.
    repeat match goal with x : () |- _ => destruct x end.
    apply _parseheader_Ok in Hstep as (He & _ & Hc & Hl).
    apply _parseforecasts_loop_Ok in Ht as (He' & Hl' & Hc' & _).
    split.
    + intros _. rewrite Hc', Hl'. by split_and!.
    + intros error. rewrite He', He, Herr. done.
  - destruct (caught e) as [message|]; [|done]. injection Hp as <-.
    split; [done|]. intros error [= <-]. by exists message.
Qed.

End NWSMore.

(** *** Examples *)

Section NWSMoreExamples.

Import NWS.

Abbreviation sample_parse :=
  (parse sample_datetime sample_strptime sample_minus_minutes
     sample_replace_tzinfo ∅).
Abbreviation sample_parsetimelayouts :=
  (_parsetimelayouts sample_datetime sample_strptime sample_minus_minutes
     sample_replace_tzinfo).

(** The report with a forecast is parsed without error. *)
Example parse_forecast_report :
  ∃ st,
    sample_parse forecast_report init = Ok () st ∧
    err st = None ∧ location st = Some "San Francisco, CA" ∧
    forecasttext _ <$> perioditems st = ["Sunny."; "Clear."] ∧
    (λ period, (timeinfo _ period).2) <$> perioditems st
    = [Some "Today"; Some "Tonight"].
Proof. eexists. split; [reflexivity|]. by split_and!. Qed.

(** Witness of [_parsetimelayouts_nonempty]: the layout of that report. *)
Lemma _parsetimelayouts_nonempty_witness :
  ∃ timelayouts,
    sample_parsetimelayouts forecast_report = inr timelayouts ∧
    is_Some (timelayouts !! "k-p12h-n2-1") ∧
    ∀ key l, timelayouts !! key = Some l → l ≠ [] ∧ strip key = key.
Proof.
  eexists. split; [reflexivity|]. split; [by eexists|].
  apply (_parsetimelayouts_nonempty sample_datetime sample_strptime
           sample_minus_minutes sample_replace_tzinfo forecast_report).
  reflexivity.
Defined.

(** Witness of [_parseforecasts_adds]: its two periods. *)
Lemma _parseforecasts_adds_witness :
  _parseforecasts sample_datetime forecast_report forecast_timelayouts init
  = Ok () forecast_periods ∧
  err forecast_periods = err (@init sample_datetime) ∧
  location forecast_periods = location (@init sample_datetime) ∧
  creationtime forecast_periods = creationtime (@init sample_datetime) ∧
  ∃ added,
    perioditems forecast_periods = perioditems (@init sample_datetime) ++ added ∧
    length added
    = sum_list ((λ wordedforecast, length (iter wordedforecast "text"))
                  <$> iter forecast_report "wordedForecast").
Proof.
  assert (_parseforecasts sample_datetime forecast_report forecast_timelayouts
            init = Ok () forecast_periods) as Hrun
    by (vm_compute; reflexivity).
  split; [exact Hrun|].
  exact (_parseforecasts_adds sample_datetime forecast_report
           forecast_timelayouts init forecast_periods Hrun).
Defined.

(** The layouts of the report are the ones used there. *)
Example forecast_timelayouts_parsed :
  sample_parsetimelayouts forecast_report = inr forecast_timelayouts.
Proof. vm_compute. reflexivity. Qed.

(** Witness of [_find_descendant]: the product of the report. *)
Lemma _find_descendant_witness :
  Forall tagname ["head"; "product"] ∧
  ∃ item,
    _find zulu_report "head" ["product"] = inr item ∧
    tag item = default "head" (last ["product"]) ∧
    item ∈ descendants zulu_report ∧
    (["product"] = [] → item ∈ children zulu_report).
Proof.
  assert (Forall tagname ["head"; "product"]) as Hkeys
    by (repeat constructor; by apply (bool_decide_unpack _)).
  split; [exact Hkeys|].
  eexists. split; [reflexivity|].
  apply (_find_descendant ["product"] zulu_report "head" _ Hkeys). reflexivity.
Defined.

(** Witness of [gettextitem_spec]: the name of a feature. *)
Lemma gettextitem_spec_witness :
  tagname "FEATURE_NAME" ∧
  gettextitem san_francisco "FEATURE_NAME" = inr "San Francisco" ∧
  (∀ s, gettextitem san_francisco "FEATURE_NAME" = inr s →
     strip s = s ∧
     ∃ before item after t,
       children san_francisco = before ++ item :: after ∧
       (∀ other, other ∈ before → tag other ≠ "FEATURE_NAME") ∧
       tag item = "FEATURE_NAME" ∧ text item = Some t ∧ s = strip t) ∧
  (∀ e, gettextitem san_francisco "FEATURE_NAME" = inl e →
     (∃ message, e = RuntimeError message) ∧
     is_Some (caught e) ∧
     ((∀ item, item ∈ children san_francisco → tag item ≠ "FEATURE_NAME") ∨
      ∃ before item after,
        children san_francisco = before ++ item :: after ∧
        (∀ other, other ∈ before → tag other ≠ "FEATURE_NAME") ∧
        tag item = "FEATURE_NAME" ∧ text item = None)).
Proof.
  assert (tagname "FEATURE_NAME") as Hkey by by apply (bool_decide_unpack _).
  split; [exact Hkey|]. split; [reflexivity|].
  exact (gettextitem_spec san_francisco "FEATURE_NAME" Hkey).
Defined.

(** With the star for key, [findfirst] gives the tree itself, whatever
    its tag. *)
Example findfirst_star :
  findfirst san_francisco "*" = Some san_francisco ∧
  findfirst san_francisco "FEAT_LATITUDE_NMBR"
  = Some (Element "FEAT_LATITUDE_NMBR" ∅ (Some "37.7749") []) ∧
  findfirst san_francisco "STATE" = None.
Proof. by split_and!. Qed.

Abbreviation sample_parse_try :=
  (parse_try sample_datetime sample_strptime sample_minus_minutes
     sample_replace_tzinfo ∅).

(** Witness of [parse_raises_only]: the report in Zulu time. *)
Lemma parse_raises_only_witness :
  sample_parse_try zulu_report init = Fail (UnboundLocalError "offset") init ∧
  caught (UnboundLocalError "offset") = None ∧
  escapes (UnboundLocalError "offset").
Proof.
  apply (parse_raises_only sample_datetime sample_strptime sample_minus_minutes
           sample_replace_tzinfo ∅ zulu_report init).
  reflexivity.
Defined.

(** Witness of [parse_records_failure]: the report without date. *)
Lemma parse_records_failure_witness :
  ∃ message st'',
    sample_parse undated_report init = Ok () st'' ∧
    err st'' = Some ("Unable to interpret weather data: " +:+ message +:+ ".") ∧
    asString_error st''
    = Some ("ERROR: Unable to interpret weather data: " +:+ message +:+ ".").
Proof.
  eexists.
  eapply (parse_records_failure sample_datetime sample_strptime
            sample_minus_minutes sample_replace_tzinfo ∅ undated_report init);
    reflexivity.
Defined.

(** Witness of [parse_success_fields], with the same report. *)
Lemma parse_success_fields_witness :
  ∃ st',
    sample_parse undated_report init = Ok () st' ∧
    (err st' = None →
       sample_parse_try undated_report init = Ok () st' ∧
       is_Some (creationtime st') ∧ is_Some (location st')) ∧
    (∀ error, err st' = Some error →
       ∃ message,
         error = "Unable to interpret weather data: " +:+ message +:+ ".").
Proof.
  eexists. split; [reflexivity|].
  apply (parse_success_fields sample_datetime sample_strptime
           sample_minus_minutes sample_replace_tzinfo ∅ undated_report init);
    reflexivity.
Defined.

End NWSMoreExamples.
